(** * safefile: atomic saving of files

    A shallow embedding of the Go package [safefile] (dchest/safefile).  The
    package writes to a temporary file next to the destination and renames it
    over the destination on commit.  Two revisions of the package are
    embedded:

    - the revision with [Commit] and a swappable [closeFunc]
      (top level of this file), and
    - the earlier revision with [CloseEx] (module [Rev1]).

    The operating system is an explicit world: a map from paths to files, a
    clock, a plan of injected faults and a log of the calls that were made.
    Package functions are written in a state monad over that world. *)

From Stdlib Require Import ZArith String Ascii HexadecimalString DecimalString.
From stdpp Require Import gmap strings list.

Local Open Scope string_scope.
Local Open Scope list_scope.
Local Open Scope Z_scope.

(** ** Errors *)

(** The error values the package and the [os] layer exchange.  [Errno n] is a
    raw system error number.  [ErrAlreadyCommitted] is the sentinel that the
    package test [TestDoubleCommit] compares against. *)
Inductive error : Type :=
  | ErrInvalid
  | ErrPermission
  | ErrExist
  | ErrNotExist
  | ErrClosed
  | ErrShortWrite
  | ErrAlreadyCommitted
  | Errno (n : Z).

#[global] Instance error_eq_dec : EqDecision error.
Proof. solve_decision. Defined.

Definition EEXIST : Z := 17.
Definition ENOTEMPTY : Z := 39.

(** ** Paths ([path/filepath], Unix) *)

Module filepath.

Definition Separator : ascii := "/"%char.

Definition IsPathSeparator (c : ascii) : bool :=
  if decide (c = Separator) then true else false.

(** [strings.Split(s, "/")]. *)
Fixpoint elements (s : string) : list string :=
  match s with
  | EmptyString => [""]
  | String c s' =>
      if IsPathSeparator c then "" :: elements s'
      else match elements s' with
           | e :: es => String c e :: es
           | [] => [String c ""]
           end
  end.

(** [strings.Join(es, "/")]. *)
Fixpoint join_sep (es : list string) : string :=
  match es with
  | [] => ""
  | [e] => e
  | e :: es' => e +:+ String Separator (join_sep es')
  end.

(** One path element of [Clean], applied to the elements kept so far (most
    recent first): empty and [.] elements are dropped, [..] removes the
    preceding real element, is dropped at the root and is kept at the front
    of a relative path. *)
Definition clean_step (rooted : bool) (kept : list string) (e : string)
  : list string :=
  if decide (e = "") then kept
  else if decide (e = ".") then kept
  else if decide (e = "..") then
    match kept with
    | top :: rest => if decide (top = "..") then ".." :: kept else rest
    | [] => if rooted then [] else [".."]
    end
  else e :: kept.

Definition rooted (path : string) : bool :=
  match path with
  | String c _ => IsPathSeparator c
  | EmptyString => false
  end.

(** [filepath.Clean]: the shortest path name equivalent to [path]. *)
Definition Clean (path : string) : string :=
  let kept := fold_left (clean_step (rooted path)) (elements path) [] in
  let body := join_sep (rev kept) in
  if rooted path then String Separator body
  else if decide (body = "") then "." else body.

(** The prefix of [path] up to and including its last separator. *)
Fixpoint upto_last_sep (path : string) : string :=
  match path with
  | EmptyString => ""
  | String c s' =>
      let r := upto_last_sep s' in
      if decide (r = "") then
        (if IsPathSeparator c then String c "" else "")
      else String c r
  end.

(** [filepath.Dir]: all but the last element of [path], cleaned. *)
Definition Dir (path : string) : string := Clean (upto_last_sep path).

(** [filepath.Join] of two elements: empty elements are ignored and the
    result is cleaned. *)
Definition Join (a b : string) : string :=
  if decide (a = "") then
    (if decide (b = "") then "" else Clean b)
  else Clean (a +:+ String Separator b).

(** The last byte of a string, [s[len(s)-1]]. *)
Fixpoint last_char (s : string) : option ascii :=
  match s with
  | EmptyString => None
  | String c EmptyString => Some c
  | String _ s' => last_char s'
  end.

End filepath.

(** ** Formatting ([fmt.Sprintf]) *)

(** The verb [%x] at a signed integer. *)
Definition fmt_x (n : Z) : string :=
  HexadecimalString.NilZero.string_of_int (Z.to_hex_int n).

(** The verb [%d] at a signed integer. *)
Definition fmt_d (n : Z) : string :=
  DecimalString.NilZero.string_of_int (Z.to_int n).

(** [fmt.Sprintf("%x-%d.tmp", nano, counter)]. *)
Definition Sprintf_tmp (nano counter : Z) : string :=
  fmt_x nano +:+ "-" +:+ fmt_d counter +:+ ".tmp".

(** ** The world: files, clock, faults and the call log *)

(** A file on disk: its permission bits and its bytes. *)
Record inode : Type := { mode : Z; data : list Byte.byte }.

(** What the environment does to the next system call: nothing, make it
    fail, or (for a write) cut it short after [n] bytes without an error. *)
Inductive Fault : Type :=
  | NoFault
  | Fail (e : error)
  | Short (n : nat).

(** The calls the package makes to the [os] layer. *)
Inductive Op : Type :=
  | OpOpen (name : string) (flag perm : Z)
  | OpWrite (name : string) (len : nat)
  | OpSync (name : string)
  | OpClose (name : string)
  | OpRename (oldpath newpath : string)
  | OpRemove (name : string).

(** A logged call with the error it returned ([None] is Go's [nil]). *)
Definition Event : Type := Op * option error.

Record World : Type := {
  files : gmap string inode;   (* the directory tree, by path *)
  clock : nat -> Z;            (* successive readings of UnixNano *)
  tick : nat;                  (* readings taken so far *)
  faults : list Fault;         (* faults for the system calls to come *)
  events : list Event          (* calls made so far, oldest first *)
}.

Definition set_files (fs : gmap string inode) (w : World) : World :=
  {| files := fs; clock := clock w; tick := tick w;
     faults := faults w; events := events w |}.

Definition set_tick (t : nat) (w : World) : World :=
  {| files := files w; clock := clock w; tick := t;
     faults := faults w; events := events w |}.

Definition set_faults (fl : list Fault) (w : World) : World :=
  {| files := files w; clock := clock w; tick := tick w;
     faults := fl; events := events w |}.

Definition add_event (ev : Event) (w : World) : World :=
  {| files := files w; clock := clock w; tick := tick w;
     faults := faults w; events := events w ++ [ev] |}.

(** The state monad over the world. *)
Definition M (A : Type) : Type := World -> A * World.

Definition ret {A} (a : A) : M A := fun w => (a, w).

Definition bind {A B} (m : M A) (k : A -> M B) : M B :=
  fun w => let (a, w') := m w in k a w'.

Declare Scope go_scope.
Delimit Scope go_scope with go.
Notation "'do' x <- m ; k" := (bind m (fun x => k))
  (at level 10, x name, m at level 100, k at level 200) : go_scope.
Notation "'do' ' p <- m ; k" := (bind m (fun x => match x with p => k end))
  (at level 10, p pattern, m at level 100, k at level 200) : go_scope.
Local Open Scope go_scope.

(** Takes the fault planned for the system call being made. *)
Definition next_fault : M Fault :=
  fun w => match faults w with
           | [] => (NoFault, w)
           | x :: rest => (x, set_faults rest w)
           end.

Definition log (op : Op) (r : option error) : M unit :=
  fun w => (tt, add_event (op, r) w).

Definition get_files : M (gmap string inode) := fun w => (files w, w).

Definition put_files (fs : gmap string inode) : M unit :=
  fun w => (tt, set_files fs w).

(** [time.Now().UnixNano()]. *)
Definition UnixNano : M Z :=
  fun w => (clock w (tick w), set_tick (S (tick w)) w).

(** ** The [os] layer *)

(** The state of an os file handle: the name it was opened with, whether it has
    been closed, and its read/write offset. *)
Record OsFile : Type := { Name : string; closed : bool; offset : nat }.

Definition set_closed (f : OsFile) : OsFile :=
  {| Name := Name f; closed := true; offset := offset f |}.

Definition advance (n : nat) (f : OsFile) : OsFile :=
  {| Name := Name f; closed := closed f; offset := (offset f + n)%nat |}.

Module os.

(** [os.IsExist]: the error reports that a file or directory already
    exists. *)
Definition IsExist (err : error) : bool :=
  match err with
  | ErrExist => true
  | Errno n => (n =? EEXIST) || (n =? ENOTEMPTY)
  | _ => false
  end.

(** Open flags, with their Linux values. *)
Definition O_RDWR : Z := 2.
Definition O_CREATE : Z := 64.
Definition O_EXCL : Z := 128.

Definition has_flag (flag bit : Z) : bool := negb (Z.land flag bit =? 0).

(** [os.OpenFile].  An existing file is opened as it is unless both
    [O_CREATE] and [O_EXCL] are set, in which case the call fails with
    [ErrExist]; a missing file is created when [O_CREATE] is set.  A failed
    call leaves the files as they were. *)
Definition OpenFile (name : string) (flag perm : Z) : M (OsFile + error) :=
  do flt <- next_fault;
  do fs <- get_files;
  let opened := {| Name := name; closed := false; offset := 0 |} in
  match flt with
  | Fail e => do _ <- log (OpOpen name flag perm) (Some e); ret (inr e)
  | _ =>
      match fs !! name with
      | Some _ =>
          if has_flag flag O_CREATE && has_flag flag O_EXCL then
            do _ <- log (OpOpen name flag perm) (Some ErrExist);
            ret (inr ErrExist)
          else
            do _ <- log (OpOpen name flag perm) None;
            ret (inl opened)
      | None =>
          if has_flag flag O_CREATE then
            do _ <- put_files (<[name := {| mode := perm; data := [] |}]> fs);
            do _ <- log (OpOpen name flag perm) None;
            ret (inl opened)
          else
            do _ <- log (OpOpen name flag perm) (Some ErrNotExist);
            ret (inr ErrNotExist)
      end
  end.

(** The bytes of a file after [b] is written at offset [off]. *)
Definition write_at (off : nat) (b content : list Byte.byte)
  : list Byte.byte :=
  take off content ++ b ++ drop (off + length b) content.

(** [File.Write] of package os.  A closed file fails without a system call.  A
    planned [Short n] writes only the first [n] bytes and reports no
    error. *)
Definition Write (f : OsFile) (b : list Byte.byte)
  : M (nat * option error * OsFile) :=
  if closed f then
    do _ <- log (OpWrite (Name f) (length b)) (Some ErrClosed);
    ret (0%nat, Some ErrClosed, f)
  else
    do flt <- next_fault;
    match flt with
    | Fail e =>
        do _ <- log (OpWrite (Name f) (length b)) (Some e);
        ret (0%nat, Some e, f)
    | _ =>
        let b' := match flt with Short n => take n b | _ => b end in
        do fs <- get_files;
        do _ <- match fs !! Name f with
                | Some nd =>
                    put_files (<[Name f := {| mode := mode nd;
                                  data := write_at (offset f) b' (data nd) |}]> fs)
                | None => ret tt
                end;
        do _ <- log (OpWrite (Name f) (length b)) None;
        ret (length b', None, advance (length b') f)
    end.

(** [File.Sync] of package os. *)
Definition Sync (f : OsFile) : M (option error) :=
  if closed f then
    do _ <- log (OpSync (Name f)) (Some ErrClosed);
    ret (Some ErrClosed)
  else
    do flt <- next_fault;
    let r := match flt with Fail e => Some e | _ => None end in
    do _ <- log (OpSync (Name f)) r;
    ret r.

(** [File.Close] of package os.  Closing a closed file is an error.  The file is
    closed afterwards even when the system call reports an error. *)
Definition Close (f : OsFile) : M (option error * OsFile) :=
  if closed f then
    do _ <- log (OpClose (Name f)) (Some ErrClosed);
    ret (Some ErrClosed, f)
  else
    do flt <- next_fault;
    let r := match flt with Fail e => Some e | _ => None end in
    do _ <- log (OpClose (Name f)) r;
    ret (r, set_closed f).

(** [os.Rename]: the file at [oldpath] replaces whatever is at [newpath].
    A failed call leaves the files as they were. *)
Definition Rename (oldpath newpath : string) : M (option error) :=
  do flt <- next_fault;
  do fs <- get_files;
  match flt with
  | Fail e => do _ <- log (OpRename oldpath newpath) (Some e); ret (Some e)
  | _ =>
      match fs !! oldpath with
      | Some nd =>
          do _ <- put_files (<[newpath := nd]> (delete oldpath fs));
          do _ <- log (OpRename oldpath newpath) None;
          ret None
      | None =>
          do _ <- log (OpRename oldpath newpath) (Some ErrNotExist);
          ret (Some ErrNotExist)
      end
  end.

(** [os.Remove].  A failed call leaves the files as they were. *)
Definition Remove (name : string) : M (option error) :=
  do flt <- next_fault;
  do fs <- get_files;
  match flt with
  | Fail e => do _ <- log (OpRemove name) (Some e); ret (Some e)
  | _ =>
      match fs !! name with
      | Some _ =>
          do _ <- put_files (delete name fs);
          do _ <- log (OpRemove name) None;
          ret None
      | None =>
          do _ <- log (OpRemove name) (Some ErrNotExist);
          ret (Some ErrNotExist)
      end
  end.

End os.

(** ** Package safefile, the revision with [Commit] *)

(** Go's [int] and [int64]: 64-bit two's complement. *)
Definition wrap_int (n : Z) : Z := (n + 2 ^ 63) mod 2 ^ 64 - 2 ^ 63.

(** [counter++] on a Go [int]. *)
Definition incr (counter : Z) : Z := wrap_int (counter + 1).

(** The functions a [closeFunc] field can hold. *)
Inductive closeFn : Type :=
  | fn_closeUncommitted
  | fn_closeAfterFailedRename
  | fn_closeCommitted
  | fn_closeAgainError.

#[global] Instance closeFn_eq_dec : EqDecision closeFn.
Proof. solve_decision. Defined.

(** [type File struct]: the embedded os file, the destination name and the
    function [Close] dispatches to. *)
Record File : Type := {
  file : OsFile;
  origName : string;
  closeFunc : closeFn
}.

Definition with_file (o : OsFile) (f : File) : File :=
  {| file := o; origName := origName f; closeFunc := closeFunc f |}.

Definition with_closeFunc (c : closeFn) (f : File) : File :=
  {| file := file f; origName := origName f; closeFunc := c |}.

Definition makeTempName (origname : string) (counter : Z) : M (string + error) :=
  let origname := filepath.Clean origname in
  if bool_decide (String.length origname = 0%nat)
     || bool_decide (filepath.last_char origname = Some filepath.Separator)
  then ret (inr ErrInvalid)
  else
    do nano <- UnixNano;
    ret (inl (filepath.Join (filepath.Dir origname) (Sprintf_tmp nano counter))).

(** The loop of [Create], from a given value of [counter].  The Go loop has
    no bound; [fuel] bounds the number of iterations and [None] means the
    bound was reached. *)
Fixpoint Create_loop (fuel : nat) (filename : string) (perm : Z) (counter : Z)
  : M (option (File + error)) :=
  match fuel with
  | O => ret None
  | S fuel' =>
      do t <- makeTempName filename counter;
      match t with
      | inr err => ret (Some (inr err))
      | inl tempname =>
          do r <- os.OpenFile tempname (Z.lor os.O_RDWR os.O_CREATE) perm;
          match r with
          | inr err =>
              if os.IsExist err then
                Create_loop fuel' filename perm (incr counter)
              else ret (Some (inr err))
          | inl f =>
              ret (Some (inl {| file := f; origName := filename;
                                closeFunc := fn_closeUncommitted |}))
          end
      end
  end.

(** [Create] creates a file in the same directory as [filename]. *)
Definition Create (fuel : nat) (filename : string) (perm : Z)
  : M (option (File + error)) :=
  Create_loop fuel filename perm 0.

(** [OrigName] returns the original filename given to [Create]. *)
Definition OrigName (f : File) : string := origName f.

Definition closeUncommitted (f : File) : M (option error * File) :=
  do '(err0, o) <- os.Close (file f);
  do err1 <- os.Remove (Name o);
  let f := with_closeFunc fn_closeAgainError (with_file o f) in
  match err0 with
  | Some e => ret (Some e, f)
  | None => ret (err1, f)
  end.

Definition closeAfterFailedRename (f : File) : M (option error * File) :=
  let f := with_closeFunc fn_closeAgainError f in
  do err <- os.Remove (Name (file f));
  ret (err, f).

Definition closeCommitted (f : File) : M (option error * File) :=
  ret (None, f).

Definition closeAgainError (f : File) : M (option error * File) :=
  ret (Some ErrInvalid, f).

(** [Close] closes the temporary file and removes it: it calls the function
    held in [closeFunc]. *)
Definition Close (f : File) : M (option error * File) :=
  match closeFunc f with
  | fn_closeUncommitted => closeUncommitted f
  | fn_closeAfterFailedRename => closeAfterFailedRename f
  | fn_closeCommitted => closeCommitted f
  | fn_closeAgainError => closeAgainError f
  end.

(** [Commit] syncs the temporary file, closes it and renames it to the
    original file name. *)
Definition Commit (f : File) : M (option error * File) :=
  do err <- os.Sync (file f);
  match err with
  | Some e => ret (Some e, f)
  | None =>
      do '(err, o) <- os.Close (file f);
      let f := with_file o f in
      match err with
      | Some e => ret (Some e, f)
      | None =>
          do err <- os.Rename (Name (file f)) (origName f);
          match err with
          | Some e => ret (Some e, with_closeFunc fn_closeAfterFailedRename f)
          | None => ret (None, with_closeFunc fn_closeCommitted f)
          end
      end
  end.

(** The promoted method [Write] of the embedded os file. *)
Definition Write (f : File) (b : list Byte.byte)
  : M (nat * option error * File) :=
  do '(n, err, o) <- os.Write (file f) b;
  ret (n, err, with_file o f).

(** The body of [WriteFile] after a successful [Create], up to its
    [return]: the returned error and the state of the handle. *)
Definition WriteFile_body (f : File) (b : list Byte.byte)
  : M (option error * File) :=
  do '(n, err, f) <- Write f b;
  match err with
  | Some e => ret (Some e, f)
  | None =>
      if (n <? length b)%nat then ret (Some ErrShortWrite, f)
      else Commit f
  end.

(** [WriteFile] is a safe analog of [ioutil.WriteFile].  The deferred
    [f.Close()] runs after the body; its result is dropped. *)
Definition WriteFile (fuel : nat) (filename : string) (b : list Byte.byte)
    (perm : Z) : M (option (option error)) :=
  do r <- Create fuel filename perm;
  match r with
  | None => ret None
  | Some (inr err) => ret (Some (Some err))
  | Some (inl f) =>
      do '(err, f) <- WriteFile_body f b;
      do _ <- Close f;
      ret (Some err)
  end.

(** A caller's use of one handle: a sequence of method calls. *)
Inductive Call : Type :=
  | CallWrite (b : list Byte.byte)
  | CallCommit
  | CallClose.

Definition call (c : Call) (f : File) : M (option error * File) :=
  match c with
  | CallWrite b => do '(_, err, f) <- Write f b; ret (err, f)
  | CallCommit => Commit f
  | CallClose => Close f
  end.

Fixpoint calls (cs : list Call) (f : File) : M (list (option error) * File) :=
  match cs with
  | [] => ret ([], f)
  | c :: cs' =>
      do '(err, f) <- call c f;
      do '(errs, f) <- calls cs' f;
      ret (err :: errs, f)
  end.

(** ** Package safefile, the revision with [CloseEx] *)

Module Rev1.

Record File : Type := { file : OsFile; origName : string }.

Definition with_file (o : OsFile) (f : File) : File :=
  {| file := o; origName := origName f |}.

Fixpoint Create_loop (fuel : nat) (filename : string) (perm : Z)
    (counter : Z) : M (option (File + error)) :=
  match fuel with
  | O => ret None
  | S fuel' =>
      do t <- makeTempName filename counter;
      match t with
      | inr err => ret (Some (inr err))
      | inl tempname =>
          do r <- os.OpenFile tempname (Z.lor os.O_RDWR os.O_CREATE) perm;
          match r with
          | inr err =>
              if os.IsExist err then
                Create_loop fuel' filename perm (incr counter)
              else ret (Some (inr err))
          | inl f => ret (Some (inl {| file := f; origName := filename |}))
          end
      end
  end.

Definition Create (fuel : nat) (filename : string) (perm : Z)
  : M (option (File + error)) :=
  Create_loop fuel filename perm 0.

Definition OrigName (f : File) : string := origName f.

Definition remove_if (deleteOnError : bool) (name : string) : M unit :=
  if deleteOnError then do _ <- os.Remove name; ret tt else ret tt.

(** [CloseEx] syncs the temporary file, closes it and renames it to the
    original file name.  On an error the temporary file is closed and, if
    [deleteOnError] is set, removed. *)
Definition CloseEx (f : File) (deleteOnError : bool)
  : M (option error * File) :=
  do err <- os.Sync (file f);
  match err with
  | Some e =>
      do '(_, o) <- os.Close (file f);
      do _ <- remove_if deleteOnError (Name o);
      ret (Some e, with_file o f)
  | None =>
      do '(err, o) <- os.Close (file f);
      let f := with_file o f in
      match err with
      | Some e =>
          do _ <- remove_if deleteOnError (Name (file f));
          ret (Some e, f)
      | None =>
          do err <- os.Rename (Name (file f)) (origName f);
          match err with
          | Some e =>
              do _ <- remove_if deleteOnError (Name (file f));
              ret (Some e, f)
          | None => ret (None, f)
          end
      end
  end.

(** [Close] calls [CloseEx(true)]. *)
Definition Close (f : File) : M (option error * File) := CloseEx f true.

Definition Write (f : File) (b : list Byte.byte)
  : M (nat * option error * File) :=
  do '(n, err, o) <- os.Write (file f) b;
  ret (n, err, with_file o f).

Definition WriteFile (fuel : nat) (filename : string) (b : list Byte.byte)
    (perm : Z) : M (option (option error)) :=
  do r <- Create fuel filename perm;
  match r with
  | None => ret None
  | Some (inr err) => ret (Some (Some err))
  | Some (inl f) =>
      do '(n, err, f) <- Write f b;
      match err with
      | Some e => do _ <- Close f; ret (Some (Some e))
      | None =>
          if (n <? length b)%nat then
            do _ <- Close f; ret (Some (Some ErrShortWrite))
          else
            do '(err, _) <- Close f; ret (Some err)
      end
  end.

End Rev1.

(** ** Sample worlds *)

(** A clock that starts at the timestamp of the package documentation and
    advances by one nanosecond per reading. *)
Definition clock0 : nat -> Z := fun n => 1385710996263796218 + Z.of_nat n.

Definition world0 (fs : gmap string inode) (fl : list Fault) : World :=
  {| files := fs; clock := clock0; tick := 0; faults := fl; events := [] |}.

Definition report : string := "/home/ken/report.txt".
Definition temp0 : string := "/home/ken/133b08cf2da7fdfa-0.tmp".

Definition bytes (s : string) : list Byte.byte := list_byte_of_string s.

(** The destination exists with content [old]. *)
Definition fs_old : gmap string inode :=
  {[ report := {| mode := 420; data := bytes "old" |} ]}.

(** The destination and a file at the first candidate temporary path. *)
Definition fs_taken : gmap string inode :=
  <[ temp0 := {| mode := 384; data := bytes "precious" |} ]> fs_old.

(** An open handle on the first candidate path, as [Create] returns it. *)
Definition handle0 : File :=
  {| file := {| Name := temp0; closed := false; offset := 0 |};
     origName := report; closeFunc := fn_closeUncommitted |}.

(** The temporary file exists and is empty. *)
Definition fs_open : gmap string inode :=
  <[ temp0 := {| mode := 420; data := [] |} ]> fs_old.

(** ** Notions used in the statements *)

(** The part of the world a system call cannot change. *)
Definition same_clock (w w' : World) : Prop :=
  clock w' = clock w /\ tick w' = tick w.

(** A call consumes at most the first planned fault. *)
Definition faults_step (w w' : World) : Prop :=
  faults w' = faults w \/ faults w' = tail (faults w).

(** A path element: not empty and without a separator. *)
Fixpoint sep_free (s : string) : bool :=
  match s with
  | EmptyString => true
  | String c s' => negb (filepath.IsPathSeparator c) && sep_free s'
  end.

Definition element (e : string) : Prop := e <> "" /\ sep_free e = true.

(** The temporary name [makeTempName] builds from a clock reading. *)
Definition candidate (filename : string) (nano counter : Z) : string :=
  filepath.Join (filepath.Dir (filepath.Clean filename))
                (Sprintf_tmp nano counter).

(** The flags [Create] opens the temporary file with. *)
Definition create_flag : Z := Z.lor os.O_RDWR os.O_CREATE.

(** The handle [Create] returns for a temporary name. *)
Definition fresh_handle (tmp filename : string) : File :=
  {| file := {| Name := tmp; closed := false; offset := 0 |};
     origName := filename; closeFunc := fn_closeUncommitted |}.

(** The value of [counter] in [Create] after [k] increments. *)
Definition counter_after (k : nat) : Z := Nat.iter k incr 0.

(** The log of consecutive failed attempts of [Create], one per error of
    [es]: each attempt reads the clock anew and uses the next value of the
    counter. *)
Fixpoint failed_opens (filename : string) (perm : Z) (clk : nat -> Z)
    (t : nat) (counter : Z) (es : list error) : list Event :=
  match es with
  | [] => []
  | e :: es' =>
      (OpOpen (candidate filename (clk t) counter) create_flag perm, Some e)
        :: failed_opens filename perm clk (S t) (incr counter) es'
  end.

(** The world after an attempt of [Create] to open [tmp] that returned
    [r]: the file is created if the call succeeded and it was missing. *)
Definition after_open (tmp : string) (perm : Z) (r : option error)
    (w : World) : World :=
  {| files := match r, files w !! tmp with
              | None, None => <[tmp := {| mode := perm; data := [] |}]> (files w)
              | _, _ => files w
              end;
     clock := clock w;
     tick := S (tick w);
     faults := tail (faults w);
     events := events w ++ [(OpOpen tmp create_flag perm, r)] |}.

(** The world after [Create] made the failed attempts [es] and then a last
    attempt that returned [r]. *)
Definition after_attempts (filename : string) (perm : Z) (es : list error)
    (r : option error) (w : World) : World :=
  let k := length es in
  let tmp := candidate filename (clock w (tick w + k)%nat) (counter_after k) in
  {| files := match r, files w !! tmp with
              | None, None => <[tmp := {| mode := perm; data := [] |}]> (files w)
              | _, _ => files w
              end;
     clock := clock w;
     tick := (tick w + S k)%nat;
     faults := drop (S k) (faults w);
     events := events w
               ++ failed_opens filename perm (clock w) (tick w) 0 es
               ++ [(OpOpen tmp create_flag perm, r)] |}.

(** The last call made was the removal of [tmp], and [tmp] is gone if that
    call succeeded. *)
Definition cleaned_up (tmp : string) (w : World) : Prop :=
  exists r, last (events w) = Some (OpRemove tmp, r) /\
            (r = None -> files w !! tmp = None).

(** The handle of the earlier revision that corresponds to a handle of the
    later one: the same file and destination, no [closeFunc]. *)
Definition forget (f : File) : Rev1.File :=
  {| Rev1.file := file f; Rev1.origName := origName f |}.

Definition forget_result (r : option (File + error) * World)
  : option (Rev1.File + error) * World :=
  match r with
  | (Some (inl f), w) => (Some (inl (forget f)), w)
  | (Some (inr e), w) => (Some (inr e), w)
  | (None, w) => (None, w)
  end.

(** How a [Close] of the earlier revision ended on disk: the temporary file
    was renamed to the destination, or its removal was the last call. *)
Definition settled (tmp dst : string) (w : World) : Prop :=
  last (events w) = Some (OpRename tmp dst, None) \/ cleaned_up tmp w.

(** A handle that has been cleaned up: the file is closed and [Close]
    dispatches to [closeAgainError]. *)
Definition finalized (f : File) : Prop :=
  closed (file f) = true /\ closeFunc f = fn_closeAgainError.

(** A logged call that was refused because the file is closed. *)
Definition refused (ev : Event) : Prop := ev.2 = Some ErrClosed.

(** A world whose clock stands still. *)
Definition world_frozen (fs : gmap string inode) : World :=
  {| files := fs; clock := fun _ => 1385710996263796218; tick := 0;
     faults := []; events := [] |}.

(** ** Notions used in the further properties *)

(** The files at the paths other than [tmp] are the same in both worlds. *)
Definition frame (tmp : string) (w w' : World) : Prop :=
  forall p, p <> tmp -> files w' !! p = files w !! p.

(** The files at the paths other than [tmp] and [dst] are the same in both
    worlds. *)
Definition frame2 (tmp dst : string) (w w' : World) : Prop :=
  forall p, p <> tmp -> p <> dst -> files w' !! p = files w !! p.

(** What holds of every handle that [Create] returned, whatever was called
    on it since: only a handle that still dispatches to [closeUncommitted]
    can have its file open. *)
Definition handle_inv (f : File) : Prop :=
  closeFunc f <> fn_closeUncommitted -> closed (file f) = true.

Definition is_rename (ev : Event) : bool :=
  match ev.1 with OpRename _ _ => true | _ => false end.

Definition is_remove (ev : Event) : bool :=
  match ev.1 with OpRemove _ => true | _ => false end.

(** The number of logged calls of one kind. *)
Fixpoint count_events (p : Event -> bool) (evs : list Event) : nat :=
  match evs with
  | [] => 0
  | ev :: evs' => ((if p ev then 1 else 0) + count_events p evs')%nat
  end.

(** The renames a handle can still make: [Commit] reaches the rename only
    through a sync on an open file. *)
Definition rename_budget (f : File) : nat :=
  if closed (file f) then 0%nat else 1%nat.

(** The removals a handle can still make. *)
Definition remove_budget (f : File) : nat :=
  match closeFunc f with
  | fn_closeUncommitted | fn_closeAfterFailedRename => 1%nat
  | fn_closeCommitted | fn_closeAgainError => 0%nat
  end.

(** A handle that is done, by a successful [Commit] or by a cleaning
    [Close]. *)
Definition sealed (f : File) : Prop :=
  closed (file f) = true /\
  (closeFunc f = fn_closeCommitted \/ closeFunc f = fn_closeAgainError).

(** The log entry of the removal that [CloseEx] makes on an error when
    [deleteOnError] is set. *)
Definition removal_log (deleteOnError : bool) (tmp : string)
    (r : option error) : list Event :=
  if deleteOnError then [(OpRemove tmp, r)] else [].

(** A name: a path element that is neither empty nor [.] nor [..]. *)
Definition real (e : string) : Prop :=
  element e /\ e <> "." /\ e <> "..".

(** The elements of a cleaned path, in path order: [..] elements first,
    none of them in a rooted path, then names. *)
Definition canonical (r : bool) (l : list string) : Prop :=
  exists ups names,
    l = ups ++ names /\
    Forall (fun e => e = "..") ups /\ Forall real names /\
    (r = true -> ups = []).

(** The elements [Clean] has kept so far, most recent first. *)
Definition stack_ok (r : bool) (kept : list string) : Prop :=
  exists names ups,
    kept = names ++ ups /\
    Forall real names /\ Forall (fun e => e = "..") ups /\
    (r = true -> ups = []).

(** The path [Clean] builds from the elements it kept. *)
Definition render (r : bool) (l : list string) : string :=
  if r then String filepath.Separator (filepath.join_sep l)
  else if decide (filepath.join_sep l = "") then "."
       else filepath.join_sep l.

(** ** Sample worlds for the further properties *)

(** A world whose clock stands still, with planned faults. *)
Definition world1 (fs : gmap string inode) (fl : list Fault) : World :=
  {| files := fs; clock := fun _ => 1385710996263796218; tick := 0;
     faults := fl; events := [] |}.

(** The world right after [Create] made the first candidate in [fs_old]. *)
Definition created1 (fl : list Fault) : World :=
  after_open temp0 420 None (world1 fs_old fl).

(** The handle of the earlier revision on the first candidate path. *)
Definition rev1_handle0 : Rev1.File := forget handle0.

(** * Properties *)

(** ** Paths and names *)

Example Sprintf_tmp_readme :
  Sprintf_tmp 1385710996263796218 0 = "133b08cf2da7fdfa-0.tmp".
Proof. reflexivity. Qed.

Example Clean_examples :
  filepath.Clean "" = "." /\
  filepath.Clean "/" = "/" /\
  filepath.Clean "//" = "/" /\
  filepath.Clean "a//b/./c/.." = "a/b" /\
  filepath.Clean "/../a/" = "/a" /\
  filepath.Clean "a/../.." = ".." /\
  filepath.Clean "../../x/" = "../../x" /\
  filepath.Clean "/home/ken/report.txt" = "/home/ken/report.txt".
Proof. repeat split; reflexivity. Qed.

Example Dir_Join_examples :
  filepath.Dir "/home/ken/report.txt" = "/home/ken" /\
  filepath.Dir "report.txt" = "." /\
  filepath.Dir "/report.txt" = "/" /\
  filepath.Dir "." = "." /\
  filepath.Join "/home/ken" "133a-0.tmp" = "/home/ken/133a-0.tmp" /\
  filepath.Join "." "133a-0.tmp" = "133a-0.tmp" /\
  filepath.Join "/" "133a-0.tmp" = "/133a-0.tmp".
Proof. repeat split; reflexivity. Qed.

(** ** The [os] layer: what one call does to the world *)

(** Unfolds the monad and the bookkeeping operations. *)
Ltac unfold_M :=
  unfold bind, ret, next_fault, log, get_files, put_files, UnixNano,
    add_event, set_faults, set_files, set_tick in *;
  simpl in *.

Lemma Sync_inv o w r w' :
  os.Sync o w = (r, w') ->
  events w' = events w ++ [(OpSync (Name o), r)] /\
  files w' = files w /\ same_clock w w' /\ faults_step w w' /\
  (closed o = true -> r = Some ErrClosed /\ faults w' = faults w) /\
  (r = None -> closed o = false).
Proof.
  unfold os.Sync, same_clock, faults_step. intros H.
  destruct (closed o) eqn:Hc; unfold_M;
    [| destruct (faults w) as [|[]] eqn:Hf ];
    inversion H; subst; simpl; rewrite ?Hf; simpl;
    repeat split; auto; try discriminate.
Qed.

Lemma Close_inv o w r o' w' :
  os.Close o w = (r, o', w') ->
  events w' = events w ++ [(OpClose (Name o), r)] /\
  files w' = files w /\ same_clock w w' /\ faults_step w w' /\
  o' = set_closed o /\
  (closed o = true -> r = Some ErrClosed /\ faults w' = faults w) /\
  (r = None -> closed o = false).
Proof.
  unfold os.Close, same_clock, faults_step, set_closed. intros H.
  destruct o as [n c off]; simpl in *.
  destruct c; unfold_M;
    [| destruct (faults w) as [|[]] eqn:Hf ];
    inversion H; subst; simpl; rewrite ?Hf; simpl;
    repeat split; auto; try discriminate.
Qed.

Lemma Rename_inv a b w r w' :
  os.Rename a b w = (r, w') ->
  events w' = events w ++ [(OpRename a b, r)] /\
  same_clock w w' /\ faults w' = tail (faults w) /\
  match r with
  | Some _ => files w' = files w
  | None => exists nd, files w !! a = Some nd /\
                       files w' = <[b := nd]> (delete a (files w))
  end.
Proof.
  unfold os.Rename, same_clock. intros H. unfold_M.
  destruct (faults w) as [|[]] eqn:Hf; simpl in *;
    try destruct (files w !! a) eqn:Ha; simpl in *;
    inversion H; subst; simpl; repeat split; eauto.
Qed.

Lemma Remove_inv name w r w' :
  os.Remove name w = (r, w') ->
  events w' = events w ++ [(OpRemove name, r)] /\
  same_clock w w' /\ faults w' = tail (faults w) /\
  match r with
  | Some _ => files w' = files w
  | None => is_Some (files w !! name) /\ files w' = delete name (files w)
  end.
Proof.
  unfold os.Remove, same_clock. intros H. unfold_M.
  destruct (faults w) as [|[]] eqn:Hf; simpl in *;
    try destruct (files w !! name) eqn:Ha; simpl in *;
    inversion H; subst; simpl; repeat split; eauto.
Qed.

(** ** The handle: [Close] and [Commit] *)

(** Runs the first call of a monadic sequence and names its result. *)
Ltac run_first H :=
  match goal with
  | |- context [os.Sync ?o ?w] =>
      destruct (os.Sync o w) as [? ?] eqn:H
  | |- context [os.Close ?o ?w] =>
      destruct (os.Close o w) as [[? ?] ?] eqn:H
  | |- context [os.Rename ?a ?b ?w] =>
      destruct (os.Rename a b w) as [? ?] eqn:H
  | |- context [os.Remove ?a ?w] =>
      destruct (os.Remove a w) as [? ?] eqn:H
  end.

Lemma closeUncommitted_inv f w err f' w' :
  closeUncommitted f w = (err, f', w') ->
  exists err0 err1 w0,
    os.Close (file f) w = (err0, set_closed (file f), w0) /\
    os.Remove (Name (file f)) w0 = (err1, w') /\
    err = match err0 with Some e => Some e | None => err1 end /\
    f' = with_closeFunc fn_closeAgainError (with_file (set_closed (file f)) f).
Proof.
  unfold closeUncommitted, bind, ret.
  run_first Hc. destruct (Close_inv _ _ _ _ _ Hc) as (_ & _ & _ & _ & -> & _).
  simpl. run_first Hr. intros H.
  exists o, o0, w0. destruct o; inversion H; subst; auto.
Qed.



Example Close_keeps_first_error :
  (Close handle0 (world0 fs_open [Fail (Errno 5)])).1.1 = Some (Errno 5) /\
  (Close handle0 (world0 fs_open [NoFault; Fail (Errno 13)])).1.1
    = Some (Errno 13) /\
  (Close handle0 (world0 fs_open [])).1.1 = None.
Proof. repeat split; reflexivity. Qed.

Lemma Commit_inv f w err f' w' :
  Commit f w = (err, f', w') ->
  let tmp := Name (file f) in
  let closed_f := with_file (set_closed (file f)) f in
  (exists e, os.Sync (file f) w = (Some e, w') /\ err = Some e /\ f' = f)
  \/
  (exists e w1,
     os.Sync (file f) w = (None, w1) /\
     os.Close (file f) w1 = (Some e, set_closed (file f), w') /\
     err = Some e /\ f' = closed_f)
  \/
  (exists w1 w2,
     os.Sync (file f) w = (None, w1) /\
     os.Close (file f) w1 = (None, set_closed (file f), w2) /\
     os.Rename tmp (origName f) w2 = (err, w') /\
     f' = with_closeFunc
            (match err with
             | Some _ => fn_closeAfterFailedRename
             | None => fn_closeCommitted
             end) closed_f).
Proof.
  unfold Commit, bind, ret. run_first Hs.
  destruct o as [e|].
  { intros H; inversion H; subst. left. eauto. }
  run_first Hc. destruct (Close_inv _ _ _ _ _ Hc) as (_ & _ & _ & _ & -> & _).
  destruct o as [e|]; simpl.
  { intros H; inversion H; subst. right; left. eauto 10. }
  run_first Hr. intros H. right; right. exists w0, w1.
  destruct o; inversion H; subst; auto.
Qed.


Example Commit_protocol_cases :
  let w fl := world0 fs_open fl in
  (Commit handle0 (w [Fail (Errno 5)])).1.1 = Some (Errno 5) /\
  events (Commit handle0 (w [Fail (Errno 5)])).2
    = [(OpSync temp0, Some (Errno 5))] /\
  events (Commit handle0 (w [NoFault; Fail (Errno 5)])).2
    = [(OpSync temp0, None); (OpClose temp0, Some (Errno 5))] /\
  events (Commit handle0 (w [NoFault; NoFault; Fail (Errno 18)])).2
    = [(OpSync temp0, None); (OpClose temp0, None);
       (OpRename temp0 report, Some (Errno 18))] /\
  files (Commit handle0 (w [NoFault; NoFault; Fail (Errno 18)])).2 !! temp0
    = Some {| mode := 420; data := [] |} /\
  (Commit handle0 (w [])).1.1 = None /\
  files (Commit handle0 (w [])).2 !! temp0 = None /\
  files (Commit handle0 (w [])).2 !! report
    = Some {| mode := 420; data := [] |}.
Proof. repeat split; reflexivity. Qed.

Lemma calls_Close_fixed (f : File) (w : World) (r : option error) :
  Close f w = (r, f, w) ->
  (forall w0, Close f w0 = (r, f, w0)) ->
  forall n, calls (replicate n CallClose) f w = (replicate n r, f, w).
Proof.
  intros _ Hfix n. induction n as [|n IH]; simpl; [reflexivity |].
  unfold bind, ret in *. rewrite Hfix, IH. reflexivity.
Qed.

(** A successful [Commit] went through all three calls. *)
Lemma Commit_ok_inv (f f' : File) (w w' : World) :
  Commit f w = (None, f', w') ->
  f' = with_closeFunc fn_closeCommitted (with_file (set_closed (file f)) f) /\
  exists nd, files w !! Name (file f) = Some nd /\
             files w' = <[origName f := nd]> (delete (Name (file f)) (files w)).
Proof.
  intros H. apply Commit_inv in H as
    [(e & _ & ? & _)|[(e & w1 & _ & _ & ? & _)|(w1 & w2 & Hs & Hc & Hr & ->)]];
    try discriminate.
  split; [reflexivity |].
  apply Sync_inv in Hs as (_ & Hfs & _).
  apply Close_inv in Hc as (_ & Hfs' & _).
  apply Rename_inv in Hr as (_ & _ & _ & nd & Hnd & Hfs'').
  exists nd. rewrite Hfs', Hfs in *. auto.
Qed.

(** C7. After a successful [Commit], any number of [Close] calls return
    [nil] and leave the world, log included, exactly as [Commit] left it: the
    destination holds the committed file and the temporary path is free. *)
Theorem Close_after_Commit_noop (f f' : File) (w w' : World) :
  Commit f w = (None, f', w') ->
  (forall n,
     calls (replicate n CallClose) f' w' = (replicate n None, f', w')) /\
  exists nd, files w !! Name (file f) = Some nd /\
             files w' !! origName f = Some nd /\
             (Name (file f) <> origName f ->
              files w' !! Name (file f) = None).
Proof.
  intros H. apply Commit_ok_inv in H as (-> & nd & Hnd & Hfs).
  split; [intros n; apply calls_Close_fixed; reflexivity |].
  exists nd. rewrite Hfs. repeat split; auto.
  - apply lookup_insert_eq.
  - intros Hne. rewrite lookup_insert_ne by congruence.
    apply lookup_delete_eq.
Qed.

Lemma Close_after_Commit_noop_witness :
  Commit handle0 (world0 fs_open [])
    = (None, (Commit handle0 (world0 fs_open [])).1.2,
       (Commit handle0 (world0 fs_open [])).2) /\
  calls [CallClose; CallClose]
        (Commit handle0 (world0 fs_open [])).1.2
        (Commit handle0 (world0 fs_open [])).2
    = ([None; None], (Commit handle0 (world0 fs_open [])).1.2,
       (Commit handle0 (world0 fs_open [])).2).
Proof.
  split; [reflexivity |].
  exact (proj1 (Close_after_Commit_noop handle0 _ (world0 fs_open []) _
                  eq_refl) 2%nat).
Defined.

(** C10. After a [Close] that cleaned up, from the open state or after a
    failed rename, any number of further [Close] calls return [ErrInvalid]
    and leave the world, log included, exactly as it was. *)
Theorem Close_again_is_error (f f1 : File) (w w1 : World)
    (err : option error) :
  closeFunc f = fn_closeUncommitted \/
  closeFunc f = fn_closeAfterFailedRename ->
  Close f w = (err, f1, w1) ->
  forall n,
    calls (replicate n CallClose) f1 w1
      = (replicate n (Some ErrInvalid), f1, w1).
Proof.
  intros Hst H n.
  assert (Hf1 : closeFunc f1 = fn_closeAgainError).
  { unfold Close in H. destruct Hst as [Hst|Hst]; rewrite Hst in H.
    - apply closeUncommitted_inv in H as (? & ? & ? & _ & _ & _ & ->).
      reflexivity.
    - unfold closeAfterFailedRename, bind, ret in H.
      destruct (os.Remove _ w) in H. inversion H; subst. reflexivity. }
  apply calls_Close_fixed; unfold Close; rewrite Hf1; reflexivity.
Qed.

Lemma Close_again_is_error_witness :
  (closeFunc handle0 = fn_closeUncommitted \/
   closeFunc handle0 = fn_closeAfterFailedRename) /\
  calls [CallClose; CallClose; CallClose]
        (Close handle0 (world0 fs_open [])).1.2
        (Close handle0 (world0 fs_open [])).2
    = ([Some ErrInvalid; Some ErrInvalid; Some ErrInvalid],
       (Close handle0 (world0 fs_open [])).1.2,
       (Close handle0 (world0 fs_open [])).2).
Proof.
  split; [left; reflexivity |].
  exact (Close_again_is_error handle0 _ (world0 fs_open []) _ None
           (or_introl eq_refl) eq_refl 3%nat).
Defined.

Example Close_sequences :
  (calls [CallClose; CallClose] handle0 (world0 fs_open [])).1.1
    = [None; Some ErrInvalid] /\
  (calls [CallCommit; CallClose; CallClose] handle0 (world0 fs_open [])).1.1
    = [None; None; None] /\
  (calls [CallCommit; CallClose; CallClose] handle0
         (world0 fs_open [NoFault; NoFault; Fail (Errno 18)])).1.1
    = [Some (Errno 18); None; Some ErrInvalid] /\
  events (calls [CallCommit; CallClose; CallClose] handle0
                (world0 fs_open [NoFault; NoFault; Fail (Errno 18)])).2
    = [(OpSync temp0, None); (OpClose temp0, None);
       (OpRename temp0 report, Some (Errno 18)); (OpRemove temp0, None)].
Proof. repeat split; reflexivity. Qed.

(** On a cleaned-up handle no method reaches the system: the handle and the
    files stay as they are, no planned fault is used up, and every call that
    is logged was refused because the file is closed. *)
Lemma call_finalized (c : Call) (f f' : File) (w w' : World)
    (err : option error) :
  finalized f ->
  call c f w = (err, f', w') ->
  f' = f /\ files w' = files w /\ faults w' = faults w /\
  (c = CallClose -> err = Some ErrInvalid /\ w' = w) /\
  exists evs, events w' = events w ++ evs /\ Forall refused evs.
Proof.
  intros [Hcl Hfn] H. destruct c as [b| |]; simpl in H.
  - unfold Write, os.Write, bind, ret in H. rewrite Hcl in H. unfold_M.
    inversion H; subst. clear H.
    split; [destruct f as [[? ? ?] ? ?]; reflexivity |].
    repeat split; auto; try discriminate.
    eexists; split; [reflexivity | repeat constructor].
  - unfold Commit, os.Sync, bind, ret in H. rewrite Hcl in H. unfold_M.
    inversion H; subst. clear H.
    repeat split; auto; try discriminate.
    eexists; split; [reflexivity | repeat constructor].
  - unfold Close in H. rewrite Hfn in H. inversion H; subst.
    repeat split; auto.
    exists []. split; [symmetry; apply app_nil_r | constructor].
Qed.

Lemma calls_finalized (cs : list Call) :
  forall (f f' : File) (w w' : World) (errs : list (option error)),
    finalized f ->
    calls cs f w = (errs, f', w') ->
    f' = f /\ files w' = files w /\ faults w' = faults w /\
    exists evs, events w' = events w ++ evs /\ Forall refused evs.
Proof.
  induction cs as [|c cs IH]; intros f f' w w' errs Hfin H; simpl in H.
  - inversion H; subst. repeat split; auto.
    exists []. split; [symmetry; apply app_nil_r | constructor].
  - unfold bind, ret in H.
    destruct (call c f w) as [[err f1] w1] eqn:Hc.
    destruct (calls cs f1 w1) as [[errs' f2] w2] eqn:Hcs.
    inversion H; subst.
    apply (call_finalized _ _ _ _ _ _ Hfin) in Hc
      as (-> & Hfs & Hfl & _ & evs & Hev & Hall).
    apply (IH _ _ _ _ _ Hfin) in Hcs
      as (-> & Hfs' & Hfl' & evs' & Hev' & Hall').
    repeat split; try congruence.
    exists (evs ++ evs'). split.
    + rewrite Hev', Hev, <- app_assoc. reflexivity.
    + apply Forall_app; auto.
Qed.

(** The cleaning-up [Close] finalizes the handle. *)
Lemma Close_finalizes (f f' : File) (w w' : World) (err : option error) :
  closeFunc f = fn_closeUncommitted \/
  (closeFunc f = fn_closeAfterFailedRename /\ closed (file f) = true) ->
  Close f w = (err, f', w') ->
  finalized f'.
Proof.
  intros Hst H. unfold Close in H. destruct Hst as [Hst|[Hst Hcl]];
    rewrite Hst in H.
  - apply closeUncommitted_inv in H as (? & ? & ? & _ & _ & _ & ->).
    split; reflexivity.
  - unfold closeAfterFailedRename, bind, ret in H.
    destruct (os.Remove _ w) in H. inversion H; subst.
    split; [exact Hcl | reflexivity].
Qed.

(** C3. What the code does on a second [Commit]: for every handle on which
    [Commit] has succeeded, another [Commit] calls sync on the closed file,
    returns the closed-file error of that call and stops there.  No rename
    is made, and the error is not [ErrAlreadyCommitted]. *)
Theorem second_Commit_returns_closed_error (f f1 : File) (w w1 : World) :
  Commit f w = (None, f1, w1) ->
  Commit f1 w1
    = (Some ErrClosed, f1,
       add_event (OpSync (Name (file f)), Some ErrClosed) w1) /\
  Some ErrClosed <> Some ErrAlreadyCommitted.
Proof.
  intros H. split; [| discriminate].
  apply Commit_ok_inv in H as (-> & _). reflexivity.
Qed.

Lemma second_Commit_returns_closed_error_witness :
  let c := Commit handle0 (world0 fs_open []) in
  c = (None, c.1.2, c.2) /\
  Commit c.1.2 c.2
    = (Some ErrClosed, c.1.2,
       add_event (OpSync (Name (file handle0)), Some ErrClosed) c.2) /\
  Some ErrClosed <> Some ErrAlreadyCommitted.
Proof.
  intros c. split; [reflexivity |].
  exact (second_Commit_returns_closed_error handle0 c.1.2
           (world0 fs_open []) c.2 eq_refl).
Defined.

Example double_Commit_log :
  (calls [CallCommit; CallCommit] handle0 (world0 fs_open [])).1.1
    = [None; Some ErrClosed] /\
  events (calls [CallCommit; CallCommit] handle0 (world0 fs_open [])).2
    = [(OpSync temp0, None); (OpClose temp0, None);
       (OpRename temp0 report, None); (OpSync temp0, Some ErrClosed)].
Proof. split; reflexivity. Qed.

(** C8. What the code does after the close step of [Commit] failed: the
    handle keeps [closeUncommitted], so a later [Close] calls close on the
    underlying file a second time, returns the closed-file error of that
    call, and then removes the temporary file. *)
Theorem Close_after_failed_close_step (f f1 : File) (w w1 : World)
    (e : error) :
  closeFunc f = fn_closeUncommitted ->
  Commit f w = (Some e, f1, w1) ->
  events w1 = events w ++ [(OpSync (Name (file f)), None);
                           (OpClose (Name (file f)), Some e)] ->
  let '(err2, f2, w2) := Close f1 w1 in
  err2 = Some ErrClosed /\
  exists r,
    events w2 = events w ++ [(OpSync (Name (file f)), None);
                             (OpClose (Name (file f)), Some e);
                             (OpClose (Name (file f)), Some ErrClosed);
                             (OpRemove (Name (file f)), r)].
Proof.
  intros Hopen H Hlog.
  assert (Hf1 : f1 = with_file (set_closed (file f)) f).
  { apply Commit_inv in H as
      [(e' & Hs & _)|[(e' & w0 & _ & _ & _ & ->)|(w0 & w2 & Hs & Hc & Hr & _)]];
      [| reflexivity |].
    - apply Sync_inv in Hs as (Hev & _).
      rewrite Hlog in Hev. apply app_inv_head in Hev. discriminate.
    - apply Sync_inv in Hs as (Hev & _).
      apply Close_inv in Hc as (Hev' & _).
      apply Rename_inv in Hr as (Hev'' & _).
      rewrite Hev'', Hev', Hev, <- !app_assoc in Hlog.
      apply app_inv_head in Hlog. discriminate. }
  subst f1. unfold Close. simpl. rewrite Hopen.
  destruct (closeUncommitted _ w1) as [[err2 f2] w2] eqn:Hcl.
  apply closeUncommitted_inv in Hcl as (err0 & err1 & w0 & Hc & Hr & -> & _).
  simpl in Hc, Hr.
  apply Close_inv in Hc as (Hev0 & _ & _ & _ & _ & Hclosed & _).
  destruct (Hclosed eq_refl) as [-> _].
  apply Remove_inv in Hr as (Hev1 & _).
  split; [reflexivity |]. exists err1.
  rewrite Hev1, Hev0, Hlog, <- !app_assoc. reflexivity.
Qed.

Lemma Close_after_failed_close_step_witness :
  let w := world0 fs_open [NoFault; Fail (Errno 5)] in
  closeFunc handle0 = fn_closeUncommitted /\
  (Commit handle0 w).1.1 = Some (Errno 5) /\
  let '(err2, f2, w2) := Close (Commit handle0 w).1.2 (Commit handle0 w).2 in
  err2 = Some ErrClosed /\
  exists r,
    events w2 = [(OpSync temp0, None); (OpClose temp0, Some (Errno 5));
                 (OpClose temp0, Some ErrClosed); (OpRemove temp0, r)].
Proof.
  intros w. split; [reflexivity |]. split; [reflexivity |].
  exact (Close_after_failed_close_step handle0 _ w _ (Errno 5)
           eq_refl eq_refl eq_refl).
Defined.

(** ** Cleaned paths *)

Lemma elements_sep_free (s : string) :
  Forall (fun e => sep_free e = true) (filepath.elements s).
Proof.
  induction s as [|c s IH]; simpl.
  - repeat constructor.
  - destruct (filepath.IsPathSeparator c) eqn:Hc.
    + constructor; [reflexivity | exact IH].
    + destruct (filepath.elements s) as [|e es].
      * repeat constructor. simpl. rewrite Hc. reflexivity.
      * inversion IH; subst. constructor; [| assumption].
        simpl. rewrite Hc. assumption.
Qed.

Lemma clean_step_element (r : bool) (kept : list string) (e : string) :
  sep_free e = true ->
  Forall element kept -> Forall element (filepath.clean_step r kept e).
Proof.
  intros He Hk. unfold filepath.clean_step.
  repeat case_decide; subst; auto.
  - destruct kept as [|top rest].
    + destruct r; repeat constructor; discriminate.
    + case_decide.
      * constructor; [split; [discriminate | reflexivity] | assumption].
      * inversion Hk; assumption.
  - constructor; [split; assumption | assumption].
Qed.

Lemma fold_clean_step_element (r : bool) (es kept : list string) :
  Forall (fun e => sep_free e = true) es ->
  Forall element kept ->
  Forall element (fold_left (filepath.clean_step r) es kept).
Proof.
  revert kept. induction es as [|e es IH]; simpl; intros kept Hes Hk.
  - assumption.
  - inversion Hes; subst. apply IH; [assumption |].
    apply clean_step_element; assumption.
Qed.

Lemma last_char_app (a b : string) (c : ascii) :
  filepath.last_char (a +:+ String c b) = filepath.last_char (String c b).
Proof.
  induction a as [|x a IH]; [reflexivity |].
  change (String x a +:+ String c b) with (String x (a +:+ String c b)).
  destruct (a +:+ String c b) eqn:E.
  - destruct a; discriminate.
  - rewrite <- IH. reflexivity.
Qed.

Lemma element_last (e : string) :
  element e ->
  exists c, filepath.last_char e = Some c /\ c <> filepath.Separator.
Proof.
  intros [Hne Hfree]. induction e as [|x e IH]; [congruence |].
  simpl in Hfree. apply andb_true_iff in Hfree as [Hx Hfree].
  destruct e as [|y e].
  - exists x. split; [reflexivity |].
    unfold filepath.IsPathSeparator in Hx. case_decide; [discriminate | auto].
  - destruct IH as (c & Hc & Hsep); [discriminate | assumption |].
    exists c. split; assumption.
Qed.

Lemma join_sep_last (es : list string) :
  Forall element es -> es <> [] ->
  exists c, filepath.last_char (filepath.join_sep es) = Some c /\
            c <> filepath.Separator.
Proof.
  induction es as [|e es IH]; intros Hes Hne; [congruence |].
  inversion Hes; subst. destruct es as [|e2 es].
  - simpl. apply element_last. assumption.
  - destruct IH as (c & Hc & Hsep); [assumption | discriminate |].
    exists c. split; [| assumption].
    change (filepath.join_sep (e :: e2 :: es))
      with (e +:+ String filepath.Separator (filepath.join_sep (e2 :: es))).
    rewrite last_char_app.
    destruct (filepath.join_sep (e2 :: es)); [discriminate | exact Hc].
Qed.

Lemma join_sep_nil_iff (es : list string) :
  Forall element es -> filepath.join_sep es = "" -> es = [].
Proof.
  intros Hes Hj. destruct es as [|e es]; [reflexivity |].
  destruct (join_sep_last (e :: es) Hes) as (c & Hc & _); [discriminate |].
  rewrite Hj in Hc. discriminate.
Qed.

(** A cleaned path is never empty. *)
Lemma Clean_nonempty (path : string) : filepath.Clean path <> "".
Proof.
  unfold filepath.Clean. destruct (filepath.rooted path); [discriminate |].
  case_decide; [discriminate | assumption].
Qed.

(** A cleaned path ends in a separator only when it is the root. *)
Lemma Clean_last_separator (path : string) :
  filepath.last_char (filepath.Clean path) = Some filepath.Separator <->
  filepath.Clean path = "/".
Proof.
  split; [| intros ->; reflexivity].
  unfold filepath.Clean.
  set (kept := fold_left _ _ _).
  assert (Hk : Forall element (rev kept)).
  { apply Forall_rev, fold_clean_step_element;
      [apply elements_sep_free | constructor]. }
  destruct (rev kept) as [|e es] eqn:Hrev.
  - simpl. destruct (filepath.rooted path); [reflexivity | discriminate].
  - destruct (join_sep_last (e :: es) Hk) as (c & Hc & Hsep);
      [discriminate |].
    destruct (filepath.rooted path).
    + destruct (filepath.join_sep (e :: es)) as [|x body];
        [discriminate |].
      change (filepath.last_char (String filepath.Separator (String x body)))
        with (filepath.last_char (String x body)).
      intros H. congruence.
    + case_decide as Hj; [rewrite Hj in Hc; discriminate |].
      intros H. congruence.
Qed.

(** [makeTempName] fails exactly at the paths that clean to the root, before
    the clock is read; at any other path it reads the clock once and returns
    the candidate name. *)
Lemma makeTempName_spec (origname : string) (counter : Z) (w : World) :
  makeTempName origname counter w =
    if decide (filepath.Clean origname = "/") then (inr ErrInvalid, w)
    else (inl (candidate origname (clock w (tick w)) counter),
          set_tick (S (tick w)) w).
Proof.
  unfold makeTempName, candidate.
  pose proof (Clean_nonempty origname) as Hne.
  pose proof (Clean_last_separator origname) as Hlast.
  case_decide as Hroot.
  - rewrite Hroot. reflexivity.
  - rewrite bool_decide_eq_false_2.
    + rewrite bool_decide_eq_false_2; [reflexivity | tauto].
    + destruct (filepath.Clean origname); [congruence | discriminate].
Qed.

(** ** [Create] *)

Lemma create_flag_bits :
  os.has_flag create_flag os.O_CREATE = true /\
  os.has_flag create_flag os.O_EXCL = false.
Proof. split; reflexivity. Qed.

(** One iteration of the loop of [Create] at a path that does not clean to
    the root: the open fails only by an injected fault; an already-exists
    error goes round the loop again, any other error is returned. *)
Lemma Create_loop_step (fuel : nat) (filename : string) (perm c : Z)
    (w : World) :
  filepath.Clean filename <> "/" ->
  Create_loop (S fuel) filename perm c w =
    let tmp := candidate filename (clock w (tick w)) c in
    match faults w with
    | Fail e :: _ =>
        if os.IsExist e then
          Create_loop fuel filename perm (incr c)
                      (after_open tmp perm (Some e) w)
        else (Some (inr e), after_open tmp perm (Some e) w)
    | _ => (Some (inl (fresh_handle tmp filename)), after_open tmp perm None w)
    end.
Proof.
  intros Hroot. cbn [Create_loop]. unfold bind at 1.
  rewrite makeTempName_spec. rewrite decide_False by assumption.
  set (tmp := candidate _ _ _). cbv zeta.
  change (Z.lor os.O_RDWR os.O_CREATE) with create_flag.
  unfold os.OpenFile, after_open, fresh_handle, bind at 1.
  unfold_M.
  destruct (faults w) as [|[|e|n] rest]; simpl;
    try (destruct (files w !! tmp); reflexivity).
  destruct (os.IsExist e); reflexivity.
Qed.

Lemma wrap_int_small (n : Z) :
  - 2 ^ 63 <= n < 2 ^ 63 -> wrap_int n = n.
Proof. intros H. unfold wrap_int. rewrite Z.mod_small; lia. Qed.

Lemma World_eq (w : World) fs ck t fl ev :
  files w = fs -> clock w = ck -> tick w = t -> faults w = fl ->
  events w = ev ->
  w = {| files := fs; clock := ck; tick := t; faults := fl; events := ev |}.
Proof. destruct w; simpl; intros; subst; reflexivity. Qed.

(** As long as the counter stays below the largest [int] it counts the
    attempts. *)
Lemma counter_after_small (k : nat) :
  Z.of_nat k < 2 ^ 63 -> counter_after k = Z.of_nat k.
Proof.
  unfold counter_after. induction k as [|k IH]; intros Hk; [reflexivity |].
  rewrite Nat.iter_succ, IH by lia. unfold incr.
  rewrite wrap_int_small by lia. lia.
Qed.

(** A run of already-exists failures: each one is retried with the next
    clock reading and the next counter value. *)
Lemma Create_loop_retry (es : list error) :
  forall (fuel : nat) (filename : string) (perm c : Z) (w : World)
         (rest : list Fault),
    filepath.Clean filename <> "/" ->
    Forall (fun e => os.IsExist e = true) es ->
    faults w = map Fail es ++ rest ->
    Create_loop (length es + fuel) filename perm c w =
    Create_loop fuel filename perm (Nat.iter (length es) incr c)
      {| files := files w; clock := clock w;
         tick := (tick w + length es)%nat; faults := rest;
         events := events w
                   ++ failed_opens filename perm (clock w) (tick w) c es |}.
Proof.
  induction es as [|e es IH]; intros fuel filename perm c w rest
    Hroot Hes Hfl.
  - simpl in *. f_equal. apply World_eq; auto using app_nil_r.
  - inversion Hes as [|? ? He Hes']; subst.
    cbn [length Nat.add]. rewrite Create_loop_step by assumption.
    rewrite Hfl. cbn [map app]. cbv zeta. rewrite He.
    rewrite (IH fuel filename perm (incr c) _ rest); try assumption.
    + rewrite Nat.iter_succ_r. f_equal.
      unfold after_open; simpl. f_equal; [lia |].
      rewrite <- app_assoc. reflexivity.
    + unfold after_open; simpl. rewrite Hfl. reflexivity.
Qed.

(** C9. In the loop of [Create], every open that fails with an
    already-exists error is retried with a new candidate, built from the
    next clock reading and the counter incremented by one, and this for any
    number of such failures; the first open that fails with another error
    ends [Create] with that error, and the first open that succeeds ends it
    with the handle. *)
Theorem Create_retry_policy (filename : string) (perm : Z) (w : World)
    (es : list error) (rest : list Fault) (fuel : nat) :
  filepath.Clean filename <> "/" ->
  Forall (fun e => os.IsExist e = true) es ->
  faults w = map Fail es ++ rest ->
  let k := length es in
  let tmp := candidate filename (clock w (tick w + k)%nat) (counter_after k) in
  match rest with
  | Fail e :: _ =>
      os.IsExist e = false ->
      Create (S k + fuel) filename perm w
        = (Some (inr e), after_attempts filename perm es (Some e) w)
  | _ =>
      Create (S k + fuel) filename perm w
        = (Some (inl (fresh_handle tmp filename)),
           after_attempts filename perm es None w)
  end.
Proof.
  intros Hroot Hes Hfl k tmp. unfold Create.
  replace (S k + fuel)%nat with (k + S fuel)%nat by lia.
  assert (Hdrop : drop (S k) (faults w) = tail rest).
  { rewrite Hfl. replace (S k) with (k + 1)%nat by lia.
    rewrite <- (drop_drop _ 1 k).
    rewrite drop_app_length' by (rewrite length_map; reflexivity).
    destruct rest; reflexivity. }
  assert (Hgo : forall r,
    after_open tmp perm r
      {| files := files w; clock := clock w; tick := (tick w + k)%nat;
         faults := rest;
         events := events w
                   ++ failed_opens filename perm (clock w) (tick w) 0 es |}
    = after_attempts filename perm es r w).
  { intros r. unfold after_open, after_attempts. simpl. fold k tmp.
    rewrite Hdrop, <- app_assoc.
    f_equal; lia. }
  unfold k. rewrite (Create_loop_retry es (S fuel) filename perm 0 w rest)
    by auto.
  rewrite Create_loop_step by assumption.
  cbv zeta. cbn [clock tick faults].
  change (Nat.iter (length es) incr 0) with (counter_after k).
  fold k tmp.
  destruct rest as [|[|e|n] rest']; try (rewrite Hgo; reflexivity).
  intros He. rewrite He, Hgo. reflexivity.
Qed.

Lemma Create_retry_policy_witness :
  let w := world0 fs_old [Fail ErrExist; Fail (Errno EEXIST);
                          Fail ErrPermission] in
  filepath.Clean report <> "/" /\
  Forall (fun e => os.IsExist e = true) [ErrExist; Errno EEXIST] /\
  faults w = map Fail [ErrExist; Errno EEXIST] ++ [Fail ErrPermission] /\
  (os.IsExist ErrPermission = false ->
   Create 3 report 420 w
     = (Some (inr ErrPermission),
        after_attempts report 420 [ErrExist; Errno EEXIST]
                       (Some ErrPermission) w)).
Proof.
  intros w.
  assert (H1 : filepath.Clean report <> "/").
  { intros H. vm_compute in H. discriminate H. }
  assert (H2 : Forall (fun e => os.IsExist e = true) [ErrExist; Errno EEXIST]).
  { repeat constructor. }
  assert (H4 : faults w
               = map Fail [ErrExist; Errno EEXIST] ++ [Fail ErrPermission]).
  { reflexivity. }
  exact (conj H1 (conj H2 (conj H4
           (Create_retry_policy report 420 w [ErrExist; Errno EEXIST]
              [Fail ErrPermission] 0 H1 H2 H4)))).
Defined.

Example Create_after_two_collisions :
  let r := Create 3 report 420
             (world0 fs_old [Fail ErrExist; Fail (Errno EEXIST)]) in
  r.1 = Some (inl (fresh_handle "/home/ken/133b08cf2da7fdfc-2.tmp" report)) /\
  events r.2
    = [(OpOpen "/home/ken/133b08cf2da7fdfa-0.tmp" create_flag 420,
        Some ErrExist);
       (OpOpen "/home/ken/133b08cf2da7fdfb-1.tmp" create_flag 420,
        Some (Errno EEXIST));
       (OpOpen "/home/ken/133b08cf2da7fdfc-2.tmp" create_flag 420, None)].
Proof. split; reflexivity. Qed.

(** The loop of [Create] ends: each round either returns or uses up one
    planned fault. *)
Lemma Create_loop_terminates (fuel : nat) :
  forall (filename : string) (perm c : Z) (w : World),
    (length (faults w) < fuel)%nat ->
    exists r w', Create_loop fuel filename perm c w = (Some r, w').
Proof.
  induction fuel as [|fuel IH]; intros filename perm c w Hlen; [lia |].
  destruct (decide (filepath.Clean filename = "/")) as [Hroot|Hroot].
  - cbn [Create_loop]. unfold bind. rewrite makeTempName_spec.
    rewrite decide_True by assumption. unfold ret. eauto.
  - rewrite Create_loop_step by assumption. cbv zeta.
    destruct (faults w) as [|[|e|n] rest] eqn:Hf; eauto.
    destruct (os.IsExist e); eauto.
    apply IH. unfold after_open; simpl. rewrite Hf. simpl in *. lia.
Qed.

(** What [Create] leaves behind: a failed [Create] leaves the files as they
    were; a successful one returns an open handle in the open state whose
    temporary file exists, the open being the last call made. *)
Lemma Create_loop_inv (fuel : nat) :
  forall (filename : string) (perm c : Z) (w w' : World) (r : File + error),
    Create_loop fuel filename perm c w = (Some r, w') ->
    match r with
    | inr _ => files w' = files w
    | inl f =>
        closeFunc f = fn_closeUncommitted /\
        closed (file f) = false /\
        origName f = filename /\
        is_Some (files w' !! Name (file f)) /\
        last (events w')
          = Some (OpOpen (Name (file f)) create_flag perm, None)
    end.
Proof.
  induction fuel as [|fuel IH]; intros filename perm c w w' r H;
    [discriminate |].
  destruct (decide (filepath.Clean filename = "/")) as [Hroot|Hroot].
  - cbn [Create_loop] in H. unfold bind in H. rewrite makeTempName_spec in H.
    rewrite decide_True in H by assumption. inversion H; subst. reflexivity.
  - rewrite Create_loop_step in H by assumption. cbv zeta in H.
    set (tmp := candidate _ _ _) in *.
    assert (Hok : (Some (inl (fresh_handle tmp filename)),
                   after_open tmp perm None w) = (Some r, w') ->
                  match r with
                  | inr _ => files w' = files w
                  | inl f =>
                      closeFunc f = fn_closeUncommitted /\
                      closed (file f) = false /\
                      origName f = filename /\
                      is_Some (files w' !! Name (file f)) /\
                      last (events w')
                        = Some (OpOpen (Name (file f)) create_flag perm, None)
                  end).
    { intros E. inversion E; subst. simpl. repeat split.
      - destruct (files w !! tmp) eqn:Ht; [rewrite Ht; eauto |].
        rewrite lookup_insert_eq. eauto.
      - apply last_snoc. }
    destruct (faults w) as [|[|e|n] rest] eqn:Hf;
      try (apply Hok; exact H).
    destruct (os.IsExist e).
    + apply IH in H. destruct r; auto.
    + inversion H; subst. reflexivity.
Qed.

(** C1. What the code does at a candidate path that is taken: [Create]
    opens the temporary file with [O_RDWR|O_CREATE], without [O_EXCL], so
    when a file already exists at the candidate path and no fault is
    injected, the first open succeeds and [Create] returns a handle on the
    existing file, which is still on disk with its content. *)
Theorem Create_opens_existing_file (filename : string) (perm : Z)
    (w : World) (nd : inode) (fuel : nat) :
  filepath.Clean filename <> "/" ->
  (forall e, head (faults w) <> Some (Fail e)) ->
  let tmp := candidate filename (clock w (tick w)) 0 in
  files w !! tmp = Some nd ->
  os.has_flag create_flag os.O_EXCL = false /\
  Create (S fuel) filename perm w
    = (Some (inl (fresh_handle tmp filename)), after_open tmp perm None w) /\
  files (after_open tmp perm None w) !! tmp = Some nd.
Proof.
  intros Hroot Hnofault tmp Hnd. split; [reflexivity |].
  unfold Create. rewrite Create_loop_step by assumption. cbv zeta. fold tmp.
  split.
  - destruct (faults w) as [|[|e|n] rest]; try reflexivity.
    exfalso. apply (Hnofault e). reflexivity.
  - unfold after_open; simpl. rewrite Hnd. assumption.
Qed.

Lemma Create_opens_existing_file_witness :
  let w := world0 fs_taken [] in
  filepath.Clean report <> "/" /\
  (forall e, head (faults w) <> Some (Fail e)) /\
  files w !! temp0 = Some {| mode := 384; data := bytes "precious" |} /\
  os.has_flag create_flag os.O_EXCL = false /\
  Create 1 report 420 w
    = (Some (inl (fresh_handle temp0 report)), after_open temp0 420 None w) /\
  files (after_open temp0 420 None w) !! temp0
    = Some {| mode := 384; data := bytes "precious" |}.
Proof.
  intros w.
  assert (H1 : filepath.Clean report <> "/").
  { intros H. vm_compute in H. discriminate H. }
  assert (H2 : forall e, head (faults w) <> Some (Fail e)).
  { intros e H. discriminate H. }
  assert (H3 : files w !! temp0
               = Some {| mode := 384; data := bytes "precious" |}).
  { reflexivity. }
  exact (conj H1 (conj H2 (conj H3
           (Create_opens_existing_file report 420 w _ 0 H1 H2 H3)))).
Defined.

(** With the clock standing still, two calls of [Create] for the same
    destination return handles on the same temporary path. *)
Example Create_twice_same_path :
  let r1 := Create 1 report 420 (world_frozen fs_old) in
  let r2 := Create 1 report 420 r1.2 in
  r1.1 = Some (inl (fresh_handle temp0 report)) /\
  r2.1 = Some (inl (fresh_handle temp0 report)).
Proof. split; reflexivity. Qed.

(** ** Rejected paths *)

(** [makeTempName] returns [ErrInvalid] exactly when the cleaned path ends
    in a separator, that is, when the path cleans to the root. *)
Lemma makeTempName_rejects_iff (origname : string) (counter : Z) (w : World) :
  (makeTempName origname counter w).1 = inr ErrInvalid <->
  filepath.last_char (filepath.Clean origname) = Some filepath.Separator.
Proof.
  rewrite makeTempName_spec, Clean_last_separator.
  case_decide as Hroot; simpl; split; intros E; congruence.
Qed.

(** C5, as the code has it.  For every destination path whose cleaned form
    ends in a directory separator, [Create] fails with [ErrInvalid] and the
    world is untouched: nothing is created, no call is made and the clock is
    not read. *)
Theorem Create_rejects_cleaned_root (filename : string) (perm : Z)
    (fuel : nat) (w : World) :
  filepath.last_char (filepath.Clean filename) = Some filepath.Separator ->
  Create (S fuel) filename perm w = (Some (inr ErrInvalid), w).
Proof.
  intros H. apply Clean_last_separator in H.
  unfold Create. cbn [Create_loop]. unfold bind.
  rewrite makeTempName_spec, decide_True by assumption. reflexivity.
Qed.

Lemma Create_rejects_cleaned_root_witness :
  filepath.last_char (filepath.Clean "/home/..//") = Some filepath.Separator /\
  Create 1 "/home/..//" 420 (world0 fs_old [])
    = (Some (inr ErrInvalid), world0 fs_old []).
Proof.
  exact (conj eq_refl
           (Create_rejects_cleaned_root "/home/..//" 420 0 (world0 fs_old [])
              eq_refl)).
Defined.

(** C5 as stated fails: a destination that ends in a separator is cleaned
    first, passes the check, and [Create] creates a temporary file for it. *)
Lemma Create_accepts_trailing_separator :
  filepath.last_char "/home/ken/" = Some filepath.Separator /\
  (Create 1 "/home/ken/" 420 (world0 fs_old [])).1
    = Some (inl (fresh_handle "/home/133b08cf2da7fdfa-0.tmp" "/home/ken/")) /\
  files (Create 1 "/home/ken/" 420 (world0 fs_old [])).2
    !! "/home/133b08cf2da7fdfa-0.tmp"
    = Some {| mode := 420; data := [] |}.
Proof. repeat split; reflexivity. Qed.

Example Create_accepts_empty_path :
  (Create 1 "" 420 (world0 fs_old [])).1
    = Some (inl (fresh_handle "133b08cf2da7fdfa-0.tmp" "")).
Proof. reflexivity. Qed.

(** ** [WriteFile] *)


(** A [Close] that has cleaning up to do ends with the removal of the
    temporary file. *)
Lemma Close_cleans_up (f f' : File) (w w' : World) (err : option error) :
  closeFunc f = fn_closeUncommitted \/
  closeFunc f = fn_closeAfterFailedRename ->
  Close f w = (err, f', w') ->
  cleaned_up (Name (file f)) w'.
Proof.
  intros Hst H. unfold Close in H.
  assert (Hrm : exists r w0, os.Remove (Name (file f)) w0 = (r, w')).
  { destruct Hst as [Hst|Hst]; rewrite Hst in H.
    - apply closeUncommitted_inv in H as (? & r & w0 & _ & Hr & _). eauto.
    - unfold closeAfterFailedRename, bind, ret in H. simpl in H.
      destruct (os.Remove (Name (file f)) w) as [r w0] eqn:Hr.
      inversion H; subst. eauto. }
  destruct Hrm as (r & w0 & Hr).
  apply Remove_inv in Hr as (Hev & _ & _ & Hfs).
  exists r. split.
  - rewrite Hev. apply last_snoc.
  - intros ->. destruct Hfs as [_ ->]. apply lookup_delete_eq.
Qed.

(** After a failed [Commit] there is still cleaning up to do. *)
Lemma Commit_failed_state (f f' : File) (w w' : World) (e : error) :
  closeFunc f = fn_closeUncommitted ->
  Commit f w = (Some e, f', w') ->
  (closeFunc f' = fn_closeUncommitted \/
   closeFunc f' = fn_closeAfterFailedRename) /\
  Name (file f') = Name (file f).
Proof.
  intros Hst H. apply Commit_inv in H as
    [(e' & _ & _ & ->)|[(e' & w1 & _ & _ & _ & ->)|(w1 & w2 & _ & _ & _ & ->)]];
    simpl; auto.
Qed.



(** [WriteFile] returns once the loop of [Create] has fuel for the planned
    faults. *)
Lemma WriteFile_returns (fuel : nat) (filename : string)
    (b : list Byte.byte) (perm : Z) (w : World) :
  (length (faults w) < fuel)%nat ->
  exists r w', WriteFile fuel filename b perm w = (Some r, w').
Proof.
  intros Hlen.
  destruct (Create_loop_terminates fuel filename perm 0 w Hlen)
    as (rc & w1 & Hc).
  unfold WriteFile, Create, bind, ret. rewrite Hc.
  destruct rc as [f|e]; [| eauto].
  destruct (WriteFile_body f b w1) as [[err f2] w2].
  destruct (Close f2 w2) as [[? ?] w3]. eauto.
Qed.

Example WriteFile_scenarios :
  let run fl := WriteFile 1 report (bytes "new data") 420 (world0 fs_old fl) in
  (run []).1 = Some None /\
  files (run []).2
    = {[ report := {| mode := 420; data := bytes "new data" |} ]} /\
  (run [NoFault; Short 3]).1 = Some (Some ErrShortWrite) /\
  files (run [NoFault; Short 3]).2 = fs_old /\
  (run [NoFault; Fail (Errno 28)]).1 = Some (Some (Errno 28)) /\
  files (run [NoFault; Fail (Errno 28)]).2 = fs_old /\
  (run [NoFault; NoFault; NoFault; NoFault; Fail (Errno 18)]).1
    = Some (Some (Errno 18)) /\
  files (run [NoFault; NoFault; NoFault; NoFault; Fail (Errno 18)]).2
    = fs_old /\
  (run [Fail ErrPermission]).1 = Some (Some ErrPermission) /\
  files (run [Fail ErrPermission]).2 = fs_old.
Proof. repeat split; vm_compute; reflexivity. Qed.

(** ** The earlier revision *)

(** [Create] is the same loop in both revisions. *)
Lemma Rev1_Create_loop_agrees (fuel : nat) :
  forall (filename : string) (perm c : Z) (w : World),
    Rev1.Create_loop fuel filename perm c w
      = forget_result (Create_loop fuel filename perm c w).
Proof.
  induction fuel as [|fuel IH]; intros filename perm c w; [reflexivity |].
  cbn [Rev1.Create_loop Create_loop]. unfold bind.
  destruct (makeTempName filename c w) as [[tmp|e] w1]; [| reflexivity].
  destruct (os.OpenFile tmp _ perm w1) as [[o|e] w2]; [reflexivity |].
  destruct (os.IsExist e); [apply IH | reflexivity].
Qed.

Lemma Rev1_Create_agrees (fuel : nat) (filename : string) (perm : Z)
    (w : World) :
  Rev1.Create fuel filename perm w
    = forget_result (Create fuel filename perm w).
Proof. apply Rev1_Create_loop_agrees. Qed.

(** [Close] of the earlier revision either renames the temporary file to
    the destination or ends with the removal of the temporary file. *)
Lemma Rev1_Close_settles (f f' : Rev1.File) (w w' : World)
    (err : option error) :
  Rev1.Close f w = (err, f', w') ->
  settled (Name (Rev1.file f)) (Rev1.origName f) w' /\
  (err = None ->
   last (events w')
     = Some (OpRename (Name (Rev1.file f)) (Rev1.origName f), None)).
Proof.
  unfold Rev1.Close, Rev1.CloseEx, Rev1.remove_if, settled, cleaned_up,
    bind, ret.
  assert (Hrm : forall w0 r w1,
    os.Remove (Name (Rev1.file f)) w0 = (r, w1) ->
    exists r, last (events w1) = Some (OpRemove (Name (Rev1.file f)), r) /\
              (r = None -> files w1 !! Name (Rev1.file f) = None)).
  { intros w0 r w1 Hr. apply Remove_inv in Hr as (Hev & _ & _ & Hfs).
    exists r. split; [rewrite Hev; apply last_snoc |].
    intros ->. destruct Hfs as [_ ->]. apply lookup_delete_eq. }
  run_first Hs. destruct o as [e|].
  - run_first Hc.
    destruct (Close_inv _ _ _ _ _ Hc) as (_ & _ & _ & _ & -> & _). simpl.
    run_first Hr. intros H; inversion H; subst.
    split; [right; eauto | discriminate].
  - run_first Hc.
    destruct (Close_inv _ _ _ _ _ Hc) as (_ & _ & _ & _ & -> & _). simpl.
    destruct o as [e|].
    + run_first Hr. intros H; inversion H; subst.
      split; [right; eauto | discriminate].
    + run_first Hr. destruct o as [e|].
      * run_first Hr2. intros H; inversion H; subst.
        split; [right; eauto | discriminate].
      * intros H; inversion H; subst.
        apply Rename_inv in Hr as (Hev & _).
        assert (Hl : last (events w')
                     = Some (OpRename (Name (Rev1.file f))
                               (Rev1.origName f), None)).
        { rewrite Hev. apply last_snoc. }
        split; [left; exact Hl | intros _; exact Hl].
Qed.

(** [WriteFile] of the earlier revision: a short write is [ErrShortWrite],
    and after a successful [Create] the handle is always closed, so that the
    temporary file was renamed to the destination or its removal was the
    last call. *)
Lemma Rev1_WriteFile_settles (fuel : nat) (filename : string)
    (b : list Byte.byte) (perm : Z) (w w' : World) (r : option error) :
  Rev1.WriteFile fuel filename b perm w = (Some r, w') ->
  match Rev1.Create fuel filename perm w with
  | (None, _) => False
  | (Some (inr e), w1) => r = Some e /\ w' = w1
  | (Some (inl f), w1) =>
      let '(n, werr, _, _) := Rev1.Write f b w1 in
      match werr with
      | Some e => r = Some e
      | None => if (n <? length b)%nat then r = Some ErrShortWrite else True
      end /\
      settled (Name (Rev1.file f)) (Rev1.origName f) w'
  end.
Proof.
  unfold Rev1.WriteFile, bind, ret.
  destruct (Rev1.Create fuel filename perm w) as [[[f|e]|] w1];
    [| intros H; inversion H; auto | discriminate].
  destruct (Rev1.Write f b w1) as [[[n werr] f2] w2] eqn:Hw.
  assert (Hf2 : Name (Rev1.file f2) = Name (Rev1.file f) /\
                Rev1.origName f2 = Rev1.origName f).
  { unfold Rev1.Write, os.Write, bind, ret in Hw.
    destruct (closed (Rev1.file f)); unfold_M;
      [inversion Hw; subst; auto |].
    destruct (faults w1) as [|[|e|k] rest]; simpl in *;
      try destruct (files w1 !! Name (Rev1.file f)); simpl in *;
      inversion Hw; subst; auto. }
  destruct Hf2 as [Hn Ho]. rewrite <- Hn, <- Ho.
  destruct werr as [e|]; [| destruct (n <? length b)%nat];
    destruct (Rev1.Close f2 w2) as [[cerr f3] w3] eqn:Hcl;
    apply Rev1_Close_settles in Hcl as [Hset _];
    intros H; inversion H; subst; auto.
Qed.

(** In the earlier revision a short write still reaches the destination:
    the closing of the handle renames the partly written file over it. *)
Example Rev1_short_write_reaches_destination :
  let res := Rev1.WriteFile 1 report (bytes "new data") 420
               (world0 fs_old [NoFault; Short 3]) in
  res.1 = Some (Some ErrShortWrite) /\
  files res.2 = {[ report := {| mode := 420; data := bytes "new" |} ]}.
Proof. split; vm_compute; reflexivity. Qed.

(** * Further properties *)

(** ** What the calls on a handle can touch *)

Lemma frame_refl (tmp : string) (w : World) : frame tmp w w.
Proof. intros p _. reflexivity. Qed.

Lemma frame_trans (tmp : string) (w1 w2 w3 : World) :
  frame tmp w1 w2 -> frame tmp w2 w3 -> frame tmp w1 w3.
Proof. intros H1 H2 p Hp. rewrite H2, H1 by assumption. reflexivity. Qed.

Lemma frame_of_eq (tmp : string) (w w' : World) :
  files w' = files w -> frame tmp w w'.
Proof. intros H p _. rewrite H. reflexivity. Qed.

Lemma frame_frame2 (tmp dst : string) (w w' : World) :
  frame tmp w w' -> frame2 tmp dst w w'.
Proof. intros H p Hp _. apply H. assumption. Qed.

Lemma frame2_trans (tmp dst : string) (w1 w2 w3 : World) :
  frame2 tmp dst w1 w2 -> frame2 tmp dst w2 w3 -> frame2 tmp dst w1 w3.
Proof. intros H1 H2 p Hp Hd. rewrite H2, H1 by assumption. reflexivity. Qed.

Lemma count_events_app (p : Event -> bool) (l1 l2 : list Event) :
  count_events p (l1 ++ l2) = (count_events p l1 + count_events p l2)%nat.
Proof. induction l1 as [|ev l1 IH]; simpl; [reflexivity | lia]. Qed.

Lemma take_length_take {A} (k : nat) (l : list A) :
  take (length (take k l)) l = take k l.
Proof.
  rewrite length_take.
  destruct (Nat.min_spec k (length l)) as [[_ ->]|[Hle ->]];
    [reflexivity | rewrite !take_ge by lia; reflexivity].
Qed.

(** One [Write]: what it logs, what it changes. *)
Lemma Write_step (f f' : File) (b : list Byte.byte) (w w' : World)
    (n : nat) (err : option error) :
  Write f b w = (n, err, f', w') ->
  Name (file f') = Name (file f) /\
  closed (file f') = closed (file f) /\
  origName f' = origName f /\
  closeFunc f' = closeFunc f /\
  events w' = events w ++ [(OpWrite (Name (file f)) (length b), err)] /\
  frame (Name (file f)) w w' /\
  (closed (file f) = true ->
   err = Some ErrClosed /\ f' = f /\ files w' = files w /\
   faults w' = faults w) /\
  (err = None ->
   closed (file f) = false /\
   n = length (take n b) /\
   offset (file f') = (offset (file f) + n)%nat /\
   files w' = match files w !! Name (file f) with
              | Some nd =>
                  <[Name (file f) :=
                      {| mode := mode nd;
                         data := os.write_at (offset (file f)) (take n b)
                                             (data nd) |}]> (files w)
              | None => files w
              end).
Proof.
  unfold Write, os.Write, bind, ret, frame. intros H.
  destruct f as [[nm cl off] dst fn]; simpl in *.
  destruct cl; unfold_M.
  - inversion H; subst; simpl. repeat split; auto; discriminate.
  - destruct (faults w) as [|[|e|k] rest]; simpl in *;
      destruct (files w !! nm) as [nd|] eqn:Hnd; simpl in *;
      inversion H; subst; simpl;
      rewrite ?take_length_take, ?length_take, ?Nat.min_id, ?firstn_all;
      repeat split; auto; try discriminate;
      try (intros p Hp; rewrite lookup_insert_ne by congruence; reflexivity);
      try lia.
Qed.

Lemma closeAfterFailedRename_inv (f f' : File) (w w' : World)
    (err : option error) :
  closeAfterFailedRename f w = (err, f', w') ->
  os.Remove (Name (file f)) w = (err, w') /\
  f' = with_closeFunc fn_closeAgainError f.
Proof.
  unfold closeAfterFailedRename, bind, ret. simpl.
  destruct (os.Remove (Name (file f)) w) as [r w0].
  intros H; inversion H; subst. auto.
Qed.

Lemma Remove_frame (name : string) (w w' : World) (r : option error) :
  os.Remove name w = (r, w') ->
  frame name w w' /\ (r = None -> files w' !! name = None).
Proof.
  intros H. apply Remove_inv in H as (_ & _ & _ & Hfs). split.
  - intros p Hp. destruct r; [rewrite Hfs; reflexivity |].
    destruct Hfs as [_ ->]. apply lookup_delete_ne. congruence.
  - intros ->. destruct Hfs as [_ ->]. apply lookup_delete_eq.
Qed.

(** One [Close], by the function it dispatches to. *)
Lemma Close_step (f f' : File) (w w' : World) (err : option error) :
  Close f w = (err, f', w') ->
  let tmp := Name (file f) in
  Name (file f') = tmp /\ origName f' = origName f /\
  frame tmp w w' /\
  match closeFunc f with
  | fn_closeUncommitted =>
      closed (file f') = true /\ closeFunc f' = fn_closeAgainError /\
      exists e0 e1,
        events w' = events w ++ [(OpClose tmp, e0); (OpRemove tmp, e1)] /\
        err = match e0 with Some e => Some e | None => e1 end /\
        (e1 = None -> files w' !! tmp = None)
  | fn_closeAfterFailedRename =>
      closed (file f') = closed (file f) /\
      closeFunc f' = fn_closeAgainError /\
      events w' = events w ++ [(OpRemove tmp, err)] /\
      (err = None -> files w' !! tmp = None)
  | fn_closeCommitted => err = None /\ f' = f /\ w' = w
  | fn_closeAgainError => err = Some ErrInvalid /\ f' = f /\ w' = w
  end.
Proof.
  intros H tmp. unfold Close in H.
  destruct (closeFunc f) eqn:Hfn.
  - apply closeUncommitted_inv in H as (e0 & e1 & w0 & Hc & Hr & -> & ->).
    apply Close_inv in Hc as (Hev0 & Hfs0 & _).
    pose proof (Remove_inv _ _ _ _ Hr) as (Hev1 & _).
    apply Remove_frame in Hr as [Hfr Hgone].
    repeat split; auto.
    + eapply frame_trans; [apply frame_of_eq; exact Hfs0 | exact Hfr].
    + exists e0, e1. repeat split; auto.
      rewrite Hev1, Hev0, <- app_assoc. reflexivity.
  - apply closeAfterFailedRename_inv in H as [Hr ->].
    pose proof (Remove_inv _ _ _ _ Hr) as (Hev1 & _).
    apply Remove_frame in Hr as [Hfr Hgone].
    repeat split; auto.
  - inversion H; subst. repeat split; auto using frame_refl.
  - inversion H; subst. repeat split; auto using frame_refl.
Qed.

(** One [Commit], by the call it stopped at. *)
Lemma Commit_step (f f' : File) (w w' : World) (err : option error) :
  Commit f w = (err, f', w') ->
  let tmp := Name (file f) in
  let dst := origName f in
  let closed_f := with_file (set_closed (file f)) f in
  (exists e, err = Some e /\ f' = f /\ files w' = files w /\
     events w' = events w ++ [(OpSync tmp, Some e)])
  \/
  (closed (file f) = false /\
   exists e, err = Some e /\ f' = closed_f /\ files w' = files w /\
     events w' = events w ++ [(OpSync tmp, None); (OpClose tmp, Some e)])
  \/
  (closed (file f) = false /\
   exists e, err = Some e /\
     f' = with_closeFunc fn_closeAfterFailedRename closed_f /\
     files w' = files w /\
     events w' = events w ++ [(OpSync tmp, None); (OpClose tmp, None);
                              (OpRename tmp dst, Some e)])
  \/
  (closed (file f) = false /\ err = None /\
   f' = with_closeFunc fn_closeCommitted closed_f /\
   events w' = events w ++ [(OpSync tmp, None); (OpClose tmp, None);
                            (OpRename tmp dst, None)] /\
   exists nd, files w !! tmp = Some nd /\
              files w' = <[dst := nd]> (delete tmp (files w))).
Proof.
  intros H tmp dst closed_f.
  apply Commit_inv in H as
    [(e & Hs & -> & ->)
    |[(e & w1 & Hs & Hc & -> & ->)
    |(w1 & w2 & Hs & Hc & Hr & ->)]].
  - left. apply Sync_inv in Hs as (Hev & Hfs & _). eauto.
  - right; left. apply Sync_inv in Hs as (Hev & Hfs & _ & _ & _ & Hop).
    apply Close_inv in Hc as (Hev' & Hfs' & _).
    split; [auto |]. exists e. repeat split; auto; [congruence |].
    rewrite Hev', Hev, <- app_assoc. reflexivity.
  - apply Sync_inv in Hs as (Hev & Hfs & _ & _ & _ & Hop).
    apply Close_inv in Hc as (Hev' & Hfs' & _).
    apply Rename_inv in Hr as (Hev'' & _ & _ & Hfs'').
    assert (Hlog : events w' = events w ++
              [(OpSync tmp, None); (OpClose tmp, None);
               (OpRename tmp dst, err)]).
    { rewrite Hev'', Hev', Hev, <- !app_assoc. reflexivity. }
    destruct err as [e|].
    + right; right; left. split; [auto |]. exists e.
      repeat split; auto. congruence.
    + right; right; right. destruct Hfs'' as (nd & Hnd & Hfs'').
      rewrite Hfs', Hfs in *. repeat split; auto. eauto.
Qed.

(** One method call touches the temporary file and, by a successful rename
    only, the destination. *)
Lemma call_frame (c : Call) (f f' : File) (w w' : World)
    (err : option error) :
  call c f w = (err, f', w') ->
  let tmp := Name (file f) in
  let dst := origName f in
  Name (file f') = tmp /\ origName f' = dst /\
  exists evs, events w' = events w ++ evs /\
    frame2 tmp dst w w' /\
    ((OpRename tmp dst, None) ∉ evs -> frame tmp w w').
Proof.
  intros H tmp dst. destruct c as [b| |]; simpl in H.
  - unfold bind, ret in H.
    destruct (Write f b w) as [[[n e] f1] w1] eqn:Hw.
    inversion H; subst.
    apply Write_step in Hw as (Hn & _ & Ho & _ & Hev & Hfr & _).
    repeat split; auto. eexists. split; [exact Hev |].
    split; [apply frame_frame2; exact Hfr | intros _; exact Hfr].
  - apply Commit_step in H as
      [(e & -> & -> & Hfs & Hev)
      |[(_ & e & -> & -> & Hfs & Hev)
      |[(_ & e & -> & -> & Hfs & Hev)
      |(_ & -> & -> & Hev & nd & Hnd & Hfs)]]];
      (split; [reflexivity |]); (split; [reflexivity |]);
      eexists; (split; [exact Hev |]).
    1-3: split; [apply frame_frame2 |intros _]; apply frame_of_eq; exact Hfs.
    split.
    + intros p Hp Hd. rewrite Hfs.
      rewrite lookup_insert_ne by (apply not_eq_sym; exact Hd).
      apply lookup_delete_ne, not_eq_sym. exact Hp.
    + intros Hn. exfalso. apply Hn.
      rewrite !elem_of_cons. auto.
  - apply Close_step in H as (Hn & Ho & Hfr & Hcase).
    repeat split; auto.
    destruct (closeFunc f).
    + destruct Hcase as (_ & _ & e0 & e1 & Hev & _).
      eexists. split; [exact Hev |].
      split; [apply frame_frame2; exact Hfr | intros _; exact Hfr].
    + destruct Hcase as (_ & _ & Hev & _).
      eexists. split; [exact Hev |].
      split; [apply frame_frame2; exact Hfr | intros _; exact Hfr].
    + destruct Hcase as (_ & _ & ->). exists [].
      split; [symmetry; apply app_nil_r |].
      split; [apply frame_frame2 |intros _]; apply frame_refl.
    + destruct Hcase as (_ & _ & ->). exists [].
      split; [symmetry; apply app_nil_r |].
      split; [apply frame_frame2 |intros _]; apply frame_refl.
Qed.

(** X1. Whatever methods are called on a handle, in any order and with any
    faults, the files at paths other than the temporary path and the
    destination are never touched, and the destination itself is touched
    only by a rename that succeeded. *)
Theorem calls_touch_only_temp_and_destination (cs : list Call) (f : File)
    (w : World) :
  let tmp := Name (file f) in
  let dst := origName f in
  let '(_, f', w') := calls cs f w in
  Name (file f') = tmp /\ origName f' = dst /\
  exists evs, events w' = events w ++ evs /\
    frame2 tmp dst w w' /\
    ((OpRename tmp dst, None) ∉ evs -> frame tmp w w').
Proof.
  revert f w. induction cs as [|c cs IH]; intros f w; simpl.
  - repeat split; auto. exists [].
    split; [symmetry; apply app_nil_r |].
    split; [apply frame_frame2 |intros _]; apply frame_refl.
  - unfold bind, ret.
    destruct (call c f w) as [[err f1] w1] eqn:Hc.
    specialize (IH f1 w1).
    destruct (calls cs f1 w1) as [[errs f2] w2] eqn:Hcs.
    apply call_frame in Hc as (Hn & Ho & evs & Hev & Hfr2 & Hfr).
    destruct IH as (Hn' & Ho' & evs' & Hev' & Hfr2' & Hfr').
    rewrite Hn, Ho in *.
    repeat split; auto.
    exists (evs ++ evs'). split; [| split].
    + rewrite Hev', Hev, <- app_assoc. reflexivity.
    + eapply frame2_trans; eassumption.
    + intros Hnot. apply not_elem_of_app in Hnot as [H1 H2].
      eapply frame_trans; auto.
Qed.

(** One method call keeps the invariant of handles and spends the budgets
    of renames and removals. *)
Lemma call_budget (c : Call) (f f' : File) (w w' : World)
    (err : option error) :
  handle_inv f ->
  call c f w = (err, f', w') ->
  handle_inv f' /\
  exists evs, events w' = events w ++ evs /\
    (count_events is_rename evs + rename_budget f' <= rename_budget f)%nat /\
    (count_events is_remove evs + remove_budget f' <= remove_budget f)%nat.
Proof.
  intros Hinv H.
  assert (Hopen : closed (file f) = false ->
                  closeFunc f = fn_closeUncommitted).
  { intros Hcl. destruct (decide (closeFunc f = fn_closeUncommitted));
      [assumption |]. rewrite Hinv in Hcl by assumption. discriminate. }
  unfold handle_inv, rename_budget, remove_budget in *.
  destruct c as [b| |]; simpl in H.
  - unfold bind, ret in H.
    destruct (Write f b w) as [[[n e] f1] w1] eqn:Hw.
    inversion H; subst.
    apply Write_step in Hw as (_ & Hcl & _ & Hfn & Hev & _).
    rewrite Hcl, Hfn. split; [assumption |].
    eexists. split; [exact Hev |]. simpl. split; lia.
  - apply Commit_step in H as
      [(e & -> & -> & Hfs & Hev)
      |[(Hcl & e & -> & -> & Hfs & Hev)
      |[(Hcl & e & -> & -> & Hfs & Hev)
      |(Hcl & -> & -> & Hev & _)]]];
      simpl; (split; [auto |]); eexists; (split; [exact Hev |]); simpl;
      try rewrite Hcl; try rewrite (Hopen Hcl); split; lia.
  - apply Close_step in H as (_ & _ & _ & Hcase).
    destruct (closeFunc f) eqn:Hfn.
    + destruct Hcase as (Hcl & Hfn' & e0 & e1 & Hev & _).
      rewrite Hcl, Hfn'. split; [auto |].
      eexists. split; [exact Hev |]. simpl. split; lia.
    + destruct Hcase as (Hcl & Hfn' & Hev & _).
      rewrite Hcl, Hfn'. split; [intros _; apply Hinv; discriminate |].
      eexists. split; [exact Hev |]. simpl. split; lia.
    + destruct Hcase as (_ & -> & ->). rewrite Hfn. split; [assumption |].
      exists []. split; [symmetry; apply app_nil_r |]. simpl. split; lia.
    + destruct Hcase as (_ & -> & ->). rewrite Hfn. split; [assumption |].
      exists []. split; [symmetry; apply app_nil_r |]. simpl. split; lia.
Qed.

Lemma calls_budget (cs : list Call) :
  forall (f f' : File) (w w' : World) (errs : list (option error)),
    handle_inv f ->
    calls cs f w = (errs, f', w') ->
    handle_inv f' /\
    exists evs, events w' = events w ++ evs /\
      (count_events is_rename evs + rename_budget f' <= rename_budget f)%nat /\
      (count_events is_remove evs + remove_budget f' <= remove_budget f)%nat.
Proof.
  induction cs as [|c cs IH]; intros f f' w w' errs Hinv H; simpl in H.
  - inversion H; subst. split; [assumption |].
    exists []. split; [symmetry; apply app_nil_r |]. simpl. split; lia.
  - unfold bind, ret in H.
    destruct (call c f w) as [[err f1] w1] eqn:Hc.
    destruct (calls cs f1 w1) as [[errs' f2] w2] eqn:Hcs.
    inversion H; subst.
    apply (call_budget _ _ _ _ _ _ Hinv) in Hc
      as (Hinv1 & evs & Hev & Hrn & Hrm).
    apply (IH _ _ _ _ _ Hinv1) in Hcs as (Hinv2 & evs' & Hev' & Hrn' & Hrm').
    split; [assumption |].
    exists (evs ++ evs'). rewrite !count_events_app.
    split; [rewrite Hev', Hev, <- app_assoc; reflexivity | split; lia].
Qed.

(** X2. On a handle returned by [Create], whatever methods are called, in
    any order and with any faults, at most one rename and at most one
    removal are ever attempted. *)
Theorem calls_rename_and_remove_once (fuel : nat) (filename : string)
    (perm : Z) (w0 w : World) (f : File) (cs : list Call) :
  Create fuel filename perm w0 = (Some (inl f), w) ->
  let '(_, _, w') := calls cs f w in
  exists evs, events w' = events w ++ evs /\
    (count_events is_rename evs <= 1)%nat /\
    (count_events is_remove evs <= 1)%nat.
Proof.
  intros Hc. apply Create_loop_inv in Hc as (Hfn & Hcl & _).
  assert (Hinv : handle_inv f) by (intros Hne; congruence).
  destruct (calls cs f w) as [[errs f'] w'] eqn:Hcs.
  apply (calls_budget _ _ _ _ _ _ Hinv) in Hcs as (_ & evs & Hev & Hrn & Hrm).
  exists evs. split; [assumption |].
  unfold rename_budget, remove_budget in *. rewrite Hcl in Hrn.
  rewrite Hfn in Hrm. split; lia.
Qed.

(** ** Handles that are done *)

Lemma call_sealed (c : Call) (f f' : File) (w w' : World)
    (err : option error) :
  sealed f ->
  call c f w = (err, f', w') ->
  f' = f /\ files w' = files w /\ faults w' = faults w /\
  exists evs, events w' = events w ++ evs /\ Forall refused evs.
Proof.
  intros [Hcl Hfn] H. destruct c as [b| |]; simpl in H.
  - unfold bind, ret in H.
    destruct (Write f b w) as [[[n e] f1] w1] eqn:Hw.
    inversion H; subst.
    apply Write_step in Hw as (_ & _ & _ & _ & Hev & _ & Hclosed & _).
    destruct (Hclosed Hcl) as (-> & -> & Hfs & Hfl).
    repeat split; auto.
    eexists. split; [exact Hev | repeat constructor].
  - unfold Commit, os.Sync, bind, ret in H. rewrite Hcl in H. unfold_M.
    inversion H; subst. clear H.
    repeat split; auto.
    eexists; split; [reflexivity | repeat constructor].
  - unfold Close in H.
    destruct Hfn as [Hfn|Hfn]; rewrite Hfn in H; inversion H; subst;
      repeat split; auto;
      exists []; (split; [symmetry; apply app_nil_r | constructor]).
Qed.

Lemma calls_sealed (cs : list Call) :
  forall (f f' : File) (w w' : World) (errs : list (option error)),
    sealed f ->
    calls cs f w = (errs, f', w') ->
    f' = f /\ files w' = files w /\ faults w' = faults w /\
    exists evs, events w' = events w ++ evs /\ Forall refused evs.
Proof.
  induction cs as [|c cs IH]; intros f f' w w' errs Hs H; simpl in H.
  - inversion H; subst. repeat split; auto.
    exists []. split; [symmetry; apply app_nil_r | constructor].
  - unfold bind, ret in H.
    destruct (call c f w) as [[err f1] w1] eqn:Hc.
    destruct (calls cs f1 w1) as [[errs' f2] w2] eqn:Hcs.
    inversion H; subst.
    apply (call_sealed _ _ _ _ _ _ Hs) in Hc
      as (-> & Hfs & Hfl & evs & Hev & Hall).
    apply (IH _ _ _ _ _ Hs) in Hcs
      as (-> & Hfs' & Hfl' & evs' & Hev' & Hall').
    repeat split; try congruence.
    exists (evs ++ evs'). split.
    + rewrite Hev', Hev, <- app_assoc. reflexivity.
    + apply Forall_app; auto.
Qed.

(** X3. Once [Commit] has succeeded, or once [Close] has run on a handle in
    the open state, the handle is inert: whatever methods are called on it
    afterwards, no file changes, no planned fault is used up, and every call
    that reaches the os layer is refused there because the file is closed.
    A late [Write] cannot reach the committed destination. *)
Theorem calls_after_Commit_or_Close_are_inert (f f1 : File) (w w1 : World)
    (err : option error) (cs : list Call) :
  Commit f w = (None, f1, w1) \/
  (closeFunc f = fn_closeUncommitted /\ Close f w = (err, f1, w1)) ->
  let '(_, f2, w2) := calls cs f1 w1 in
  f2 = f1 /\ files w2 = files w1 /\ faults w2 = faults w1 /\
  exists evs, events w2 = events w1 ++ evs /\ Forall refused evs.
Proof.
  intros H.
  assert (Hs : sealed f1).
  { destruct H as [H|[Hfn H]].
    - apply Commit_ok_inv in H as [-> _]. split; [reflexivity | left; reflexivity].
    - apply Close_step in H as (_ & _ & _ & Hcase). rewrite Hfn in Hcase.
      destruct Hcase as (Hcl & Hfn' & _). split; auto. }
  destruct (calls cs f1 w1) as [[errs f2] w2] eqn:Hcs.
  exact (calls_sealed _ _ _ _ _ _ Hs Hcs).
Qed.

(** ** [Create] and the files *)

(** [Create] leaves the files as they were, except that a successful
    [Create] makes an empty file at the temporary path when there was none.
    The handle starts at offset 0. *)
Lemma Create_loop_files (fuel : nat) :
  forall (filename : string) (perm c : Z) (w w' : World)
         (r : option (File + error)),
    Create_loop fuel filename perm c w = (r, w') ->
    match r with
    | Some (inl f) =>
        offset (file f) = 0%nat /\
        files w' = match files w !! Name (file f) with
                   | Some _ => files w
                   | None => <[Name (file f) := {| mode := perm; data := [] |}]>
                               (files w)
                   end
    | _ => files w' = files w
    end.
Proof.
  induction fuel as [|fuel IH]; intros filename perm c w w' r H.
  - inversion H; subst. reflexivity.
  - destruct (decide (filepath.Clean filename = "/")) as [Hroot|Hroot].
    + cbn [Create_loop] in H. unfold bind in H.
      rewrite makeTempName_spec in H.
      rewrite decide_True in H by assumption. inversion H; subst. reflexivity.
    + rewrite Create_loop_step in H by assumption. cbv zeta in H.
      set (tmp := candidate _ _ _) in *.
      assert (Hok : (Some (inl (fresh_handle tmp filename)),
                     after_open tmp perm None w) = (r, w') ->
                    match r with
                    | Some (inl f) =>
                        offset (file f) = 0%nat /\
                        files w' = match files w !! Name (file f) with
                                   | Some _ => files w
                                   | None =>
                                       <[Name (file f) :=
                                           {| mode := perm; data := [] |}]>
                                         (files w)
                                   end
                    | _ => files w' = files w
                    end).
      { intros E. inversion E; subst. simpl. split; reflexivity. }
      destruct (faults w) as [|[|e|n] rest] eqn:Hf;
        try (apply Hok; exact H).
      destruct (os.IsExist e).
      * apply IH in H. exact H.
      * inversion H; subst. reflexivity.
Qed.

(** X4. [Create] never changes or removes a file that exists: every file
    that was there is there afterwards with the same content, and the only
    file [Create] can add is one empty file, at the temporary path of the
    handle it returns.  When [Create] fails the files are as before. *)
Theorem Create_adds_at_most_one_file (fuel : nat) (filename : string)
    (perm : Z) (w : World) :
  let '(r, w') := Create fuel filename perm w in
  (forall p nd, files w !! p = Some nd -> files w' !! p = Some nd) /\
  match r with
  | Some (inl f) =>
      files w' = files w \/
      (files w !! Name (file f) = None /\
       files w' = <[Name (file f) := {| mode := perm; data := [] |}]> (files w))
  | _ => files w' = files w
  end.
Proof.
  unfold Create.
  destruct (Create_loop fuel filename perm 0 w) as [r w'] eqn:H.
  apply Create_loop_files in H.
  destruct r as [[f|e]|].
  - destruct H as [_ H].
    destruct (files w !! Name (file f)) as [nd0|] eqn:Ht.
    + rewrite H. auto.
    + split; [| right; auto].
      intros p nd Hp. rewrite H.
      rewrite lookup_insert_ne by congruence. exact Hp.
  - rewrite H. auto.
  - rewrite H. auto.
Qed.

(** X5. [OrigName] is the name that was given to [Create], and no method
    call changes it or the name of the temporary file. *)
Theorem OrigName_is_the_name_given (fuel : nat) (filename : string)
    (perm : Z) (w0 w : World) (f : File) (cs : list Call) :
  Create fuel filename perm w0 = (Some (inl f), w) ->
  OrigName f = filename /\
  OrigName (calls cs f w).1.2 = filename /\
  Name (file (calls cs f w).1.2) = Name (file f).
Proof.
  intros Hc. apply Create_loop_inv in Hc as (_ & _ & Ho & _).
  unfold OrigName. split; [exact Ho |].
  rewrite <- Ho. clear Ho. revert f w.
  induction cs as [|c cs IH]; intros f w; simpl; [auto |].
  unfold bind, ret.
  destruct (call c f w) as [[err f1] w1] eqn:Hcall.
  apply call_frame in Hcall as (Hn & Ho & _).
  specialize (IH f1 w1).
  destruct (calls cs f1 w1) as [[errs f2] w2]. simpl in *.
  destruct IH as [IH1 IH2]. split; congruence.
Qed.

(** ** What a whole write leaves on disk *)

Lemma frame_fresh_eq (tmp : string) (w w' : World) :
  frame tmp w w' ->
  files w !! tmp = None -> files w' !! tmp = None ->
  files w' = files w.
Proof.
  intros Hfr H0 H1. apply map_eq. intros p.
  destruct (decide (p = tmp)) as [->|Hp]; [congruence | apply Hfr, Hp].
Qed.

Lemma Create_loop_frame (fuel : nat) (filename : string) (perm c : Z)
    (w w' : World) (f : File) :
  Create_loop fuel filename perm c w = (Some (inl f), w') ->
  frame (Name (file f)) w w'.
Proof.
  intros H. apply Create_loop_files in H as [_ H]. intros p Hp. rewrite H.
  destruct (files w !! Name (file f)); [reflexivity |].
  apply lookup_insert_ne. congruence.
Qed.


(** The body of [WriteFile] when it fails: only the temporary file was
    touched, and the handle still has cleaning up to do. *)
Lemma WriteFile_body_failure (f f2 : File) (b : list Byte.byte)
    (w w2 : World) (e : error) :
  closeFunc f = fn_closeUncommitted ->
  WriteFile_body f b w = (Some e, f2, w2) ->
  frame (Name (file f)) w w2 /\
  Name (file f2) = Name (file f) /\
  (closeFunc f2 = fn_closeUncommitted \/
   closeFunc f2 = fn_closeAfterFailedRename).
Proof.
  intros Hfn. unfold WriteFile_body, bind, ret.
  destruct (Write f b w) as [[[n werr] f1] w1] eqn:Hw.
  apply Write_step in Hw as (Hn & _ & _ & Hfn1 & _ & Hfr & _).
  rewrite Hfn in Hfn1.
  destruct werr as [e'|]; [intros H; inversion H; subst; auto |].
  destruct (n <? length b)%nat; [intros H; inversion H; subst; auto |].
  intros H. pose proof (Commit_failed_state _ _ _ _ _ Hfn1 H) as [Hst Hn2].
  apply Commit_step in H as
    [(e' & _ & -> & Hfs & _)
    |[(_ & e' & _ & -> & Hfs & _)
    |[(_ & e' & _ & -> & Hfs & _)
    |(_ & ? & _)]]]; try discriminate;
    (split; [eapply frame_trans; [exact Hfr | apply frame_of_eq; exact Hfs] |]);
    (split; [simpl in *; congruence | exact Hst]).
Qed.

(** X6. When [WriteFile] fails, every file other than the temporary file is
    exactly as it was before the call: the destination is untouched.  If
    moreover the temporary path was free and the final removal succeeded,
    the files are exactly as before. *)
Theorem WriteFile_failure_leaves_files (fuel : nat) (filename : string)
    (b : list Byte.byte) (perm : Z) (w w' : World) (e : error) :
  WriteFile fuel filename b perm w = (Some (Some e), w') ->
  match Create fuel filename perm w with
  | (Some (inl f), _) =>
      frame (Name (file f)) w w' /\
      (files w !! Name (file f) = None ->
       last (events w') = Some (OpRemove (Name (file f)), None) ->
       files w' = files w)
  | _ => files w' = files w
  end.
Proof.
  unfold WriteFile, bind, ret. unfold Create.
  destruct (Create_loop fuel filename perm 0 w) as [[[f|e0]|] w1] eqn:Hc;
    [| intros H; inversion H; subst;
       apply Create_loop_files in Hc; exact Hc
     | discriminate ].
  pose proof (Create_loop_frame _ _ _ _ _ _ _ Hc) as Hfr0.
  apply Create_loop_inv in Hc as (Hfn & _).
  destruct (WriteFile_body f b w1) as [[err f2] w2] eqn:Hb.
  destruct (Close f2 w2) as [[cerr f3] w3] eqn:Hcl.
  intros H; inversion H; subst. clear H.
  apply (WriteFile_body_failure _ _ _ _ _ _ Hfn) in Hb as (Hfr1 & Hn & Hst).
  pose proof (Close_cleans_up _ _ _ _ _ Hst Hcl) as (r & Hlast & Hgone).
  apply Close_step in Hcl as (_ & _ & Hfr2 & _).
  rewrite Hn in *.
  assert (Hfr : frame (Name (file f)) w w').
  { eapply frame_trans; [| exact Hfr2].
    eapply frame_trans; [exact Hfr0 | exact Hfr1]. }
  split; [exact Hfr |].
  intros Hfresh Hrm. apply (frame_fresh_eq _ _ _ Hfr Hfresh).
  apply Hgone. rewrite Hlast in Hrm. congruence.
Qed.


Lemma calls_writes_frame (bs : list (list Byte.byte)) :
  forall (f f' : File) (w w' : World) (errs : list (option error)),
    calls (map CallWrite bs) f w = (errs, f', w') ->
    frame (Name (file f)) w w' /\
    Name (file f') = Name (file f) /\
    closeFunc f' = closeFunc f /\
    origName f' = origName f.
Proof.
  induction bs as [|b bs IH]; intros f f' w w' errs H; simpl in H.
  - inversion H; subst. auto using frame_refl.
  - unfold bind, ret in H.
    destruct (Write f b w) as [[[n e] f1] w1] eqn:Hw.
    destruct (calls (map CallWrite bs) f1 w1) as [[errs' f2] w2] eqn:Hcs.
    inversion H; subst.
    apply Write_step in Hw as (Hn & _ & Ho & Hfn & _ & Hfr & _).
    apply IH in Hcs as (Hfr' & Hn' & Hfn' & Ho').
    rewrite Hn in *. repeat split; try congruence.
    eapply frame_trans; eassumption.
Qed.

(** X8. Abandoning a write restores the disk: after [Create] on a free
    temporary path, any number of writes (failed or not) and a [Close] that
    returns [nil], the files are exactly as they were before [Create]. *)
Theorem Close_restores_files (fuel : nat) (filename : string) (perm : Z)
    (w w1 w2 w' : World) (f f2 f3 : File) (bs : list (list Byte.byte))
    (errs : list (option error)) :
  Create fuel filename perm w = (Some (inl f), w1) ->
  files w !! Name (file f) = None ->
  calls (map CallWrite bs) f w1 = (errs, f2, w2) ->
  Close f2 w2 = (None, f3, w') ->
  files w' = files w.
Proof.
  intros Hc Hfresh Hws Hcl. unfold Create in Hc.
  pose proof (Create_loop_frame _ _ _ _ _ _ _ Hc) as Hfr0.
  apply Create_loop_inv in Hc as (Hfn & _).
  apply calls_writes_frame in Hws as (Hfr1 & Hn & Hfn2 & _).
  rewrite Hfn in Hfn2.
  apply Close_step in Hcl as (_ & _ & Hfr2 & Hcase).
  rewrite Hfn2, Hn in *.
  destruct Hcase as (_ & _ & e0 & e1 & _ & Herr & Hgone).
  apply (frame_fresh_eq (Name (file f))); auto.
  - eapply frame_trans; [| exact Hfr2].
    eapply frame_trans; eassumption.
  - apply Hgone. destruct e0; [discriminate | congruence].
Qed.

(** ** The earlier revision: [CloseEx], [Close] and [WriteFile] *)

(** One write of the os layer. *)
Lemma os_Write_step (o o' : OsFile) (b : list Byte.byte) (w w' : World)
    (n : nat) (err : option error) :
  os.Write o b w = (n, err, o', w') ->
  Name o' = Name o /\ closed o' = closed o /\
  frame (Name o) w w' /\
  (err = None ->
   n = length (take n b) /\
   offset o' = (offset o + n)%nat /\
   files w' = match files w !! Name o with
              | Some nd =>
                  <[Name o := {| mode := mode nd;
                                 data := os.write_at (offset o) (take n b)
                                                     (data nd) |}]> (files w)
              | None => files w
              end) /\
  (err <> None -> n = 0%nat /\ files w' = files w).
Proof.
  unfold os.Write, bind, ret, frame. intros H.
  destruct o as [nm cl off]; simpl in *.
  destruct cl; unfold_M.
  - inversion H; subst; simpl. repeat split; auto; discriminate.
  - destruct (faults w) as [|[|e|k] rest]; simpl in *;
      destruct (files w !! nm) as [nd|] eqn:Hnd; simpl in *;
      inversion H; subst; simpl;
      rewrite ?take_length_take, ?length_take, ?Nat.min_id, ?firstn_all;
      repeat split; auto; try discriminate; try congruence;
      try (intros p Hp; rewrite lookup_insert_ne by congruence; reflexivity);
      try lia.
Qed.

Lemma Rev1_remove_if_inv (d : bool) (tmp : string) (w w' : World) (u : unit) :
  Rev1.remove_if d tmp w = (u, w') ->
  exists r, events w' = events w ++ removal_log d tmp r /\
            frame tmp w w' /\
            (d = false -> files w' = files w) /\
            (d = true -> r = None -> files w' !! tmp = None).
Proof.
  unfold Rev1.remove_if, removal_log, bind, ret. destruct d.
  - destruct (os.Remove tmp w) as [r w0] eqn:Hr. intros H; inversion H; subst.
    pose proof (Remove_inv _ _ _ _ Hr) as (Hev & _).
    apply Remove_frame in Hr as [Hfr Hgone].
    exists r. repeat split; auto. discriminate.
  - intros H; inversion H; subst. exists None.
    repeat split; auto using frame_refl, app_nil_r; try discriminate.
Qed.

(** The outcomes of [CloseEx], by the call it stopped at. *)
Lemma Rev1_CloseEx_cases (f : Rev1.File) (d : bool) (w : World) :
  let tmp := Name (Rev1.file f) in
  let dst := Rev1.origName f in
  let '(err, f', w') := Rev1.CloseEx f d w in
  f' = Rev1.with_file (set_closed (Rev1.file f)) f /\
  ((exists e e0 r, err = Some e /\
      events w' = events w ++ [(OpSync tmp, Some e); (OpClose tmp, e0)]
                           ++ removal_log d tmp r /\
      frame tmp w w' /\ (d = false -> files w' = files w) /\
      (d = true -> r = None -> files w' !! tmp = None))
   \/
   (exists e r, err = Some e /\
      events w' = events w ++ [(OpSync tmp, None); (OpClose tmp, Some e)]
                           ++ removal_log d tmp r /\
      frame tmp w w' /\ (d = false -> files w' = files w) /\
      (d = true -> r = None -> files w' !! tmp = None))
   \/
   (exists e r, err = Some e /\
      events w' = events w ++ [(OpSync tmp, None); (OpClose tmp, None);
                               (OpRename tmp dst, Some e)]
                           ++ removal_log d tmp r /\
      frame tmp w w' /\ (d = false -> files w' = files w) /\
      (d = true -> r = None -> files w' !! tmp = None))
   \/
   (err = None /\
      events w' = events w ++ [(OpSync tmp, None); (OpClose tmp, None);
                               (OpRename tmp dst, None)] /\
      exists nd, files w !! tmp = Some nd /\
                 files w' = <[dst := nd]> (delete tmp (files w)))).
Proof.
  intros tmp dst. subst tmp dst. unfold Rev1.CloseEx, bind, ret.
  run_first Hs. pose proof (Sync_inv _ _ _ _ Hs) as (Hev & Hfs & _).
  destruct o as [e|].
  - run_first Hc. pose proof (Close_inv _ _ _ _ _ Hc)
      as (Hev' & Hfs' & _ & _ & -> & _). simpl.
    destruct (Rev1.remove_if d (Name (Rev1.file f)) w1) as [u w2] eqn:Hr.
    apply Rev1_remove_if_inv in Hr as (r & Hev'' & Hfr & Hkeep & Hgone).
    split; [reflexivity |]. left. exists e, o, r.
    repeat split; auto.
    + rewrite Hev'', Hev', Hev, <- !app_assoc. reflexivity.
    + intros p Hp. rewrite (Hfr p Hp). congruence.
    + intros Hd. rewrite (Hkeep Hd). congruence.
  - run_first Hc. pose proof (Close_inv _ _ _ _ _ Hc)
      as (Hev' & Hfs' & _ & _ & -> & _). simpl.
    destruct o as [e|].
    + destruct (Rev1.remove_if d (Name (Rev1.file f)) w1) as [u w2] eqn:Hr.
      apply Rev1_remove_if_inv in Hr as (r & Hev'' & Hfr & Hkeep & Hgone).
      split; [reflexivity |]. right; left. exists e, r.
      repeat split; auto.
      * rewrite Hev'', Hev', Hev, <- !app_assoc. reflexivity.
      * intros p Hp. rewrite (Hfr p Hp). congruence.
      * intros Hd. rewrite (Hkeep Hd). congruence.
    + run_first Hrn.
      pose proof (Rename_inv _ _ _ _ _ Hrn) as (Hev2 & _ & _ & Hfs2).
      destruct o as [e|].
      * destruct (Rev1.remove_if d (Name (Rev1.file f)) w2) as [u w3] eqn:Hr.
        apply Rev1_remove_if_inv in Hr as (r & Hev'' & Hfr & Hkeep & Hgone).
        split; [reflexivity |]. right; right; left. exists e, r.
        repeat split; auto.
        -- rewrite Hev'', Hev2, Hev', Hev, <- !app_assoc. reflexivity.
        -- intros p Hp. rewrite (Hfr p Hp). congruence.
        -- intros Hd. rewrite (Hkeep Hd). congruence.
      * split; [reflexivity |]. right; right; right.
        destruct Hfs2 as (nd & Hnd & Hfs2).
        rewrite Hfs', Hfs in *. repeat split; auto.
        -- rewrite Hev2, Hev', Hev, <- !app_assoc. reflexivity.
        -- eauto.
Qed.


Lemma Rev1_Close_ok_inv (f f' : Rev1.File) (w w' : World) :
  Rev1.Close f w = (None, f', w') ->
  f' = Rev1.with_file (set_closed (Rev1.file f)) f /\
  exists nd, files w !! Name (Rev1.file f) = Some nd /\
             files w' = <[Rev1.origName f := nd]>
                          (delete (Name (Rev1.file f)) (files w)).
Proof.
  intros H. pose proof (Rev1_CloseEx_cases f true w) as P.
  unfold Rev1.Close in H. rewrite H in P. cbv zeta in P.
  destruct P as [-> [(e & ? & ? & ? & _)|[(e & ? & ? & _)|[(e & ? & ? & _)|P]]]];
    try discriminate.
  destruct P as (_ & _ & nd & Hnd & Hfs). eauto.
Qed.

(** X10. In the earlier revision a second [Close] never renames again: it
    returns the closed-file error of the refused sync, and its only call
    that reaches the system is a removal of the temporary path.  After a
    first [Close] that succeeded this leaves the files, the new destination
    included, as they are. *)
Theorem Rev1_Close_again (f f1 : Rev1.File) (w w1 : World)
    (err : option error) :
  Rev1.Close f w = (err, f1, w1) ->
  let tmp := Name (Rev1.file f) in
  let '(err2, f2, w2) := Rev1.Close f1 w1 in
  err2 = Some ErrClosed /\ f2 = f1 /\
  (exists r, events w2 = events w1 ++ [(OpSync tmp, Some ErrClosed);
                                       (OpClose tmp, Some ErrClosed);
                                       (OpRemove tmp, r)]) /\
  frame tmp w1 w2 /\
  (err = None -> tmp <> Rev1.origName f -> files w2 = files w1).
Proof.
  intros H tmp.
  assert (Hf1 : f1 = Rev1.with_file (set_closed (Rev1.file f)) f).
  { pose proof (Rev1_CloseEx_cases f true w) as P.
    unfold Rev1.Close in H. rewrite H in P. apply P. }
  assert (Hfree : err = None -> tmp <> Rev1.origName f ->
                  files w1 !! tmp = None).
  { intros -> Hne. apply Rev1_Close_ok_inv in H as (_ & nd & _ & ->).
    rewrite lookup_insert_ne by (apply not_eq_sym; exact Hne).
    apply lookup_delete_eq. }
  subst f1. unfold Rev1.Close, Rev1.CloseEx, Rev1.remove_if, os.Sync,
    os.Close, bind, ret. simpl. unfold_M. fold tmp.
  destruct (os.Remove tmp _) as [r w2] eqn:Hr.
  pose proof (Remove_inv _ _ _ _ Hr) as (Hev & _ & _ & Hfs).
  apply Remove_frame in Hr as [Hfr _]. simpl in *.
  repeat split; auto.
  - exists r. rewrite Hev, <- !app_assoc. reflexivity.
  - intros He Hne. specialize (Hfree He Hne).
    destruct r; [exact Hfs |].
    destruct Hfs as [[x Hx] _]. simpl in Hx. congruence.
Qed.

Lemma Rev1_Create_inv (fuel : nat) (filename : string) (perm : Z)
    (w w1 : World) (f : Rev1.File) :
  Rev1.Create fuel filename perm w = (Some (inl f), w1) ->
  Rev1.origName f = filename /\
  closed (Rev1.file f) = false /\
  offset (Rev1.file f) = 0%nat /\
  files w1 = match files w !! Name (Rev1.file f) with
             | Some _ => files w
             | None => <[Name (Rev1.file f) := {| mode := perm; data := [] |}]>
                         (files w)
             end.
Proof.
  rewrite Rev1_Create_agrees. unfold Create.
  destruct (Create_loop fuel filename perm 0 w) as [[[f0|e]|] w0] eqn:Hc;
    simpl; intros H; inversion H; subst.
  pose proof (Create_loop_files _ _ _ _ _ _ _ Hc) as [Hoff Hfs].
  apply Create_loop_inv in Hc as (_ & Hcl & Ho & _).
  simpl. auto.
Qed.

Lemma Rev1_Write_step (f f' : Rev1.File) (b : list Byte.byte)
    (w w' : World) (n : nat) (err : option error) :
  Rev1.Write f b w = (n, err, f', w') ->
  os.Write (Rev1.file f) b w = (n, err, Rev1.file f', w') /\
  Rev1.origName f' = Rev1.origName f.
Proof.
  unfold Rev1.Write, bind, ret.
  destruct (os.Write (Rev1.file f) b w) as [[[n0 e0] o] w0].
  intros H; inversion H; subst. auto.
Qed.

(** In the earlier revision: [Create] on a free path, one write, and a
    [Close] that succeeds put the bytes that were written at the
    destination. *)
Lemma Rev1_write_then_Close (fuel : nat) (filename : string)
    (b : list Byte.byte) (perm : Z) (w w1 w2 w3 : World)
    (f f2 f3 : Rev1.File) (n : nat) (werr : option error) :
  Rev1.Create fuel filename perm w = (Some (inl f), w1) ->
  files w !! Name (Rev1.file f) = None ->
  Rev1.Write f b w1 = (n, werr, f2, w2) ->
  Rev1.Close f2 w2 = (None, f3, w3) ->
  files w3 = <[filename := {| mode := perm; data := take n b |}]> (files w).
Proof.
  intros Hc Hfresh Hw Hcl.
  apply Rev1_Create_inv in Hc as (Ho & _ & Hoff & Hfs1).
  rewrite Hfresh in Hfs1.
  apply Rev1_Write_step in Hw as [Hw Ho2].
  apply os_Write_step in Hw as (Hn & _ & _ & Hok & Hbad).
  apply Rev1_Close_ok_inv in Hcl as (_ & nd & Hnd & ->).
  rewrite Hn, Ho2, Ho in *.
  assert (Hfs2 : files w2 = <[Name (Rev1.file f) :=
                   {| mode := perm; data := take n b |}]> (files w)).
  { destruct werr as [e|].
    - destruct Hbad as [-> ->]; [discriminate |]. exact Hfs1.
    - destruct (Hok eq_refl) as (_ & _ & ->).
      rewrite Hfs1, lookup_insert_eq, insert_insert_eq. simpl.
      rewrite Hoff. unfold os.write_at. simpl.
      rewrite drop_nil, app_nil_r. reflexivity. }
  rewrite Hfs2, lookup_insert_eq in Hnd. inversion Hnd; subst nd.
  rewrite Hfs2, delete_insert_eq, delete_id by exact Hfresh. reflexivity.
Qed.

(** X11. In the earlier revision too, when [WriteFile] succeeds and the
    temporary path was free, the files afterwards are the files before with
    the destination replaced by a file that holds exactly the buffer. *)
Theorem Rev1_WriteFile_success_content (fuel : nat) (filename : string)
    (b : list Byte.byte) (perm : Z) (w w1 w' : World) (f : Rev1.File) :
  Rev1.Create fuel filename perm w = (Some (inl f), w1) ->
  files w !! Name (Rev1.file f) = None ->
  Rev1.WriteFile fuel filename b perm w = (Some None, w') ->
  files w' = <[filename := {| mode := perm; data := b |}]> (files w).
Proof.
  intros Hc Hfresh. unfold Rev1.WriteFile, bind, ret. rewrite Hc.
  destruct (Rev1.Write f b w1) as [[[n werr] f2] w2] eqn:Hw.
  destruct werr as [e|].
  { destruct (Rev1.Close f2 w2) as [[? ?] ?]. discriminate. }
  destruct (n <? length b)%nat eqn:Hlt.
  { destruct (Rev1.Close f2 w2) as [[? ?] ?]. discriminate. }
  apply Nat.ltb_ge in Hlt.
  destruct (Rev1.Close f2 w2) as [[cerr f3] w3] eqn:Hcl.
  intros H; inversion H; subst.
  rewrite (Rev1_write_then_Close _ _ _ _ _ _ _ _ _ _ _ _ _ Hc Hfresh Hw Hcl).
  rewrite take_ge by exact Hlt. reflexivity.
Qed.

(** X12. In the earlier revision a failed write still reaches the
    destination.  [WriteFile] closes the handle with [Close] after a write
    error or a short write, and [Close] commits: when its sync, close and
    rename succeed, [WriteFile] returns the write error (or
    [ErrShortWrite]) and the destination has been replaced by a file that
    holds only the bytes that were written. *)
Theorem Rev1_WriteFile_commits_failed_write (fuel : nat) (filename : string)
    (b : list Byte.byte) (perm : Z) (w w1 w2 w3 : World)
    (f f2 f3 : Rev1.File) (n : nat) (werr : option error) :
  Rev1.Create fuel filename perm w = (Some (inl f), w1) ->
  files w !! Name (Rev1.file f) = None ->
  Rev1.Write f b w1 = (n, werr, f2, w2) ->
  werr <> None \/ (n < length b)%nat ->
  Rev1.Close f2 w2 = (None, f3, w3) ->
  Rev1.WriteFile fuel filename b perm w
    = (Some (Some (match werr with Some e => e | None => ErrShortWrite end)),
       w3) /\
  files w3 = <[filename := {| mode := perm; data := take n b |}]> (files w).
Proof.
  intros Hc Hfresh Hw Hfail Hcl. split.
  - unfold Rev1.WriteFile, bind, ret. rewrite Hc, Hw.
    destruct werr as [e|]; [rewrite Hcl; reflexivity |].
    destruct Hfail as [Hfail|Hfail]; [congruence |].
    apply Nat.ltb_lt in Hfail. rewrite Hfail, Hcl. reflexivity.
  - exact (Rev1_write_then_Close _ _ _ _ _ _ _ _ _ _ _ _ _
             Hc Hfresh Hw Hcl).
Qed.

(** ** Writing and committing *)

Lemma frame_insert_eq (tmp : string) (w w' : World) (nd : inode) :
  frame tmp w w' ->
  files w !! tmp = None -> files w' !! tmp = Some nd ->
  files w' = <[tmp := nd]> (files w).
Proof.
  intros Hfr H0 H1. apply map_eq. intros p.
  destruct (decide (p = tmp)) as [->|Hp].
  - rewrite lookup_insert_eq. exact H1.
  - rewrite lookup_insert_ne by (apply not_eq_sym; exact Hp). apply Hfr, Hp.
Qed.

(** X13. [Commit] publishes the temporary file and nothing else: after
    [Create] on a free temporary path and any writes (short, failed or
    complete), a [Commit] that succeeds leaves the files as they were before
    [Create], with the destination replaced by what the temporary file held
    when [Commit] was called. *)
Theorem Commit_publishes_temp_file (fuel : nat) (filename : string)
    (perm : Z) (w w1 w2 w3 : World) (f f2 f3 : File)
    (bs : list (list Byte.byte)) (errs : list (option error)) :
  Create fuel filename perm w = (Some (inl f), w1) ->
  files w !! Name (file f) = None ->
  calls (map CallWrite bs) f w1 = (errs, f2, w2) ->
  Commit f2 w2 = (None, f3, w3) ->
  exists nd, files w2 !! Name (file f) = Some nd /\
             files w3 = <[filename := nd]> (files w).
Proof.
  intros Hc Hfresh Hws Hcm. unfold Create in Hc.
  pose proof (Create_loop_frame _ _ _ _ _ _ _ Hc) as Hfr0.
  apply Create_loop_inv in Hc as (_ & _ & Ho & _).
  apply calls_writes_frame in Hws as (Hfr1 & Hn & _ & Ho2).
  apply Commit_ok_inv in Hcm as (_ & nd & Hnd & Hfs3).
  rewrite Hn, Ho2, Ho in *.
  exists nd. split; [exact Hnd |].
  assert (Hfs2 : files w2 = <[Name (file f) := nd]> (files w)).
  { apply frame_insert_eq; auto. eapply frame_trans; eassumption. }
  rewrite Hfs3, Hfs2, delete_insert_eq, delete_id by exact Hfresh.
  reflexivity.
Qed.

(** Without faults every write is complete and lands behind the one
    before. *)
Lemma calls_writes_concat (bs : list (list Byte.byte)) :
  forall (f f' : File) (w w' : World) (errs : list (option error))
         (m : Z) (d : list Byte.byte),
    faults w = [] ->
    closed (file f) = false ->
    files w !! Name (file f) = Some {| mode := m; data := d |} ->
    offset (file f) = length d ->
    calls (map CallWrite bs) f w = (errs, f', w') ->
    Forall (fun e => e = None) errs /\
    faults w' = [] /\
    closed (file f') = false /\
    files w' !! Name (file f)
      = Some {| mode := m; data := d ++ concat bs |}.
Proof.
  induction bs as [|b bs IH]; intros f f' w w' errs m d Hfl Hcl Hnd Hoff H;
    simpl in H.
  - inversion H; subst. rewrite app_nil_r. auto.
  - unfold bind, ret in H.
    destruct (Write f b w) as [[[n e] f1] w1] eqn:Hw.
    destruct (calls (map CallWrite bs) f1 w1) as [[errs' f2] w2] eqn:Hcs.
    inversion H; subst. clear H.
    unfold Write, os.Write, bind, ret in Hw. rewrite Hcl in Hw. unfold_M.
    rewrite Hfl in Hw. simpl in Hw. rewrite Hnd in Hw. simpl in Hw.
    inversion Hw; subst. clear Hw.
    assert (Hdata : os.write_at (offset (file f)) b d = d ++ b).
    { unfold os.write_at. rewrite Hoff, firstn_all, drop_ge by lia.
      rewrite app_nil_r. reflexivity. }
    rewrite Hdata in Hcs.
    eapply (IH _ _ _ _ _ m (d ++ b)) in Hcs; simpl; auto.
    + destruct Hcs as (Hall & Hfl' & Hcl' & Hfs). simpl in Hfs.
      repeat split; auto. rewrite Hfs, <- app_assoc. reflexivity.
    + apply lookup_insert_eq.
    + rewrite length_app. lia.
Qed.

(** X14. The whole life of a handle without faults: after [Create] on a
    free temporary path, the writes all succeed, [Commit] succeeds and the
    [Close] after it is a no-op; the files are then the files before
    [Create] with the destination replaced by a file that holds the written
    buffers one after the other, in the order of the writes. *)
Theorem write_Commit_Close_publishes_writes (fuel : nat) (filename : string)
    (perm : Z) (w w1 w2 : World) (f f2 : File)
    (bs : list (list Byte.byte)) (errs : list (option error)) :
  Create fuel filename perm w = (Some (inl f), w1) ->
  files w !! Name (file f) = None ->
  faults w1 = [] ->
  calls (map CallWrite bs) f w1 = (errs, f2, w2) ->
  Forall (fun e => e = None) errs /\
  exists f3 w3,
    Commit f2 w2 = (None, f3, w3) /\
    Close f3 w3 = (None, f3, w3) /\
    files w3 = <[filename := {| mode := perm; data := concat bs |}]> (files w).
Proof.
  intros Hc Hfresh Hfl Hws. unfold Create in Hc.
  pose proof (Create_loop_frame _ _ _ _ _ _ _ Hc) as Hfr0.
  pose proof (Create_loop_files _ _ _ _ _ _ _ Hc) as [Hoff Hfs1].
  rewrite Hfresh in Hfs1.
  apply Create_loop_inv in Hc as (_ & Hcl & Ho & _).
  pose proof (calls_writes_frame _ _ _ _ _ _ Hws) as (Hfr1 & Hn & _ & Ho2).
  apply (calls_writes_concat _ _ _ _ _ _ perm []) in Hws
    as (Hall & Hfl2 & Hcl2 & Hnd); auto;
    [| rewrite Hfs1; apply lookup_insert_eq].
  simpl in Hnd. split; [exact Hall |].
  assert (Hfs2 : files w2 = <[Name (file f) :=
                   {| mode := perm; data := concat bs |}]> (files w)).
  { apply frame_insert_eq; auto. eapply frame_trans; eassumption. }
  unfold Commit, os.Sync, os.Close, os.Rename, bind, ret.
  rewrite Hcl2. unfold_M. repeat (rewrite Hfl2; simpl).
  rewrite Hn, Hnd. simpl.
  eexists _, _. split; [reflexivity |]. split; [reflexivity |]. simpl.
  rewrite Ho2, Ho, Hfs2, delete_insert_eq, delete_id by exact Hfresh.
  reflexivity.
Qed.

(** ** Cleaned paths, joined and split *)

Lemma elements_nonempty (s : string) : filepath.elements s <> [].
Proof.
  destruct s as [|c s]; simpl; [discriminate |].
  destruct (filepath.IsPathSeparator c); [discriminate |].
  destruct (filepath.elements s); discriminate.
Qed.

Lemma elements_app_sep (a b : string) :
  filepath.elements (a +:+ String filepath.Separator b)
    = filepath.elements a ++ filepath.elements b.
Proof.
  induction a as [|c a IH]; [reflexivity |].
  change (String c a +:+ String filepath.Separator b)
    with (String c (a +:+ String filepath.Separator b)).
  cbn [filepath.elements]. rewrite IH.
  destruct (filepath.IsPathSeparator c); [reflexivity |].
  pose proof (elements_nonempty a) as Hne.
  destruct (filepath.elements a); [congruence | reflexivity].
Qed.

Lemma elements_single (e : string) :
  sep_free e = true -> filepath.elements e = [e].
Proof.
  induction e as [|c e IH]; intros H; [reflexivity |].
  simpl in H. apply andb_true_iff in H as [Hc He].
  cbn [filepath.elements]. apply negb_true_iff in Hc. rewrite Hc.
  rewrite IH by assumption. reflexivity.
Qed.

Lemma elements_join_sep (l : list string) :
  Forall (fun e => sep_free e = true) l -> l <> [] ->
  filepath.elements (filepath.join_sep l) = l.
Proof.
  induction l as [|e l IH]; intros Hall Hne; [congruence |].
  inversion Hall; subst. destruct l as [|e2 l].
  - simpl. apply elements_single. assumption.
  - change (filepath.join_sep (e :: e2 :: l))
      with (e +:+ String filepath.Separator (filepath.join_sep (e2 :: l))).
    rewrite elements_app_sep, elements_single by assumption.
    rewrite IH by (assumption || discriminate). reflexivity.
Qed.

Lemma real_element (e : string) : real e -> element e.
Proof. intros [H _]. exact H. Qed.

Lemma dotdot_element (e : string) : e = ".." -> element e.
Proof. intros ->. split; [discriminate | reflexivity]. Qed.

Lemma canonical_elements (r : bool) (l : list string) :
  canonical r l -> Forall element l.
Proof.
  intros (ups & names & -> & Hups & Hn & _). apply Forall_app. split.
  - eapply Forall_impl; [exact Hups | apply dotdot_element].
  - eapply Forall_impl; [exact Hn | apply real_element].
Qed.

Lemma clean_step_real (r : bool) (kept : list string) (e : string) :
  real e -> filepath.clean_step r kept e = e :: kept.
Proof.
  intros ([Hne _] & Hdot & Hdd). unfold filepath.clean_step.
  rewrite !decide_False by assumption. reflexivity.
Qed.

Lemma fold_clean_skip (r : bool) (l : list string) :
  fold_left (filepath.clean_step r) ("" :: l) []
    = fold_left (filepath.clean_step r) l [].
Proof. reflexivity. Qed.

Lemma fold_clean_names (r : bool) (names acc : list string) :
  Forall real names ->
  fold_left (filepath.clean_step r) names acc = rev names ++ acc.
Proof.
  revert acc. induction names as [|e names IH]; intros acc H; [reflexivity |].
  inversion H; subst. simpl. rewrite clean_step_real by assumption.
  rewrite IH by assumption. rewrite <- app_assoc. reflexivity.
Qed.

Lemma fold_clean_ups (ups acc : list string) :
  Forall (fun e => e = "..") ups -> Forall (fun e => e = "..") acc ->
  fold_left (filepath.clean_step false) ups acc = rev ups ++ acc.
Proof.
  revert acc. induction ups as [|e ups IH]; intros acc H Hacc; [reflexivity |].
  inversion H; subst. simpl.
  assert (Hstep : filepath.clean_step false acc ".." = ".." :: acc).
  { destruct acc as [|top rest]; [reflexivity |].
    inversion Hacc; subst. reflexivity. }
  rewrite Hstep, IH by (assumption || (constructor; auto)).
  rewrite <- app_assoc. reflexivity.
Qed.

(** Going through the elements of a cleaned path keeps them all. *)
Lemma fold_clean_canonical (r : bool) (l : list string) :
  canonical r l -> fold_left (filepath.clean_step r) l [] = rev l.
Proof.
  intros (ups & names & -> & Hups & Hn & Hr).
  rewrite fold_left_app, rev_app_distr.
  destruct r.
  - rewrite (Hr eq_refl). simpl. apply fold_clean_names. assumption.
  - rewrite (fold_clean_ups ups []) by (assumption || constructor).
    rewrite app_nil_r. apply fold_clean_names. assumption.
Qed.

Lemma stack_ok_step (r : bool) (kept : list string) (e : string) :
  sep_free e = true -> stack_ok r kept ->
  stack_ok r (filepath.clean_step r kept e).
Proof.
  intros He (names & ups & -> & Hn & Hups & Hr). unfold filepath.clean_step.
  destruct (decide (e = "")) as [_|Hne]; [exists names, ups; auto |].
  destruct (decide (e = ".")) as [_|Hdot]; [exists names, ups; auto |].
  destruct (decide (e = "..")) as [->|Hdd].
  - destruct names as [|n names]; simpl.
    + destruct ups as [|u ups].
      * destruct r; [exists [], []; auto |].
        exists [], [".."]. repeat split; auto. discriminate.
      * inversion Hups; subst. rewrite decide_True by reflexivity.
        exists [], (".." :: ".." :: ups). repeat split; auto.
        intros Hrt. specialize (Hr Hrt). discriminate.
    + inversion Hn as [|? ? Hreal Hn']; subst.
      destruct Hreal as (_ & _ & Hndd). rewrite decide_False by assumption.
      exists names, ups. auto.
  - exists (e :: names), ups. repeat split; auto.
    constructor; [| assumption]. repeat split; assumption.
Qed.

Lemma stack_ok_fold (r : bool) (es kept : list string) :
  Forall (fun e => sep_free e = true) es -> stack_ok r kept ->
  stack_ok r (fold_left (filepath.clean_step r) es kept).
Proof.
  revert kept. induction es as [|e es IH]; intros kept Hes Hk; [assumption |].
  inversion Hes; subst. simpl. apply IH; [assumption |].
  apply stack_ok_step; assumption.
Qed.

Lemma stack_ok_canonical (r : bool) (kept : list string) :
  stack_ok r kept -> canonical r (rev kept).
Proof.
  intros (names & ups & -> & Hn & Hups & Hr).
  exists (rev ups), (rev names). rewrite rev_app_distr.
  repeat split; auto using Forall_rev.
  intros Hrt. rewrite (Hr Hrt). reflexivity.
Qed.

(** Every cleaned path is the rendering of canonical elements. *)
Lemma Clean_render (path : string) :
  exists l, canonical (filepath.rooted path) l /\
            filepath.Clean path = render (filepath.rooted path) l.
Proof.
  exists (rev (fold_left (filepath.clean_step (filepath.rooted path))
                         (filepath.elements path) [])).
  split; [| reflexivity].
  apply stack_ok_canonical, stack_ok_fold; [apply elements_sep_free |].
  exists [], []. auto.
Qed.

Lemma render_nonempty (r : bool) (l : list string) : render r l <> "".
Proof.
  unfold render. destruct r; [discriminate |].
  case_decide; [discriminate | assumption].
Qed.

Lemma rooted_app (a b : string) :
  a <> "" -> filepath.rooted (a +:+ b) = filepath.rooted a.
Proof. destruct a; [congruence | reflexivity]. Qed.

Lemma rooted_element (e : string) : element e -> filepath.rooted e = false.
Proof.
  intros [Hne Hfree]. destruct e as [|c e]; [congruence |].
  simpl in *. apply andb_true_iff in Hfree as [Hc _].
  apply negb_true_iff in Hc. exact Hc.
Qed.

Lemma rooted_join_sep (l : list string) :
  Forall element l -> filepath.rooted (filepath.join_sep l) = false.
Proof.
  intros H. destruct l as [|e l]; [reflexivity |]. inversion H; subst.
  destruct l as [|e2 l]; [apply rooted_element; assumption |].
  change (filepath.join_sep (e :: e2 :: l))
    with (e +:+ String filepath.Separator (filepath.join_sep (e2 :: l))).
  rewrite rooted_app by (destruct H2; assumption).
  apply rooted_element. assumption.
Qed.

Lemma rooted_render (r : bool) (l : list string) :
  canonical r l -> filepath.rooted (render r l) = r.
Proof.
  intros Hc. apply canonical_elements in Hc. unfold render.
  destruct r; [reflexivity |].
  case_decide; [reflexivity | apply rooted_join_sep; assumption].
Qed.

(** The elements of a rendered path clean to the elements it was rendered
    from. *)
Lemma fold_clean_render (r : bool) (l : list string) :
  canonical r l ->
  fold_left (filepath.clean_step r) (filepath.elements (render r l)) []
    = rev l.
Proof.
  intros Hc. pose proof (canonical_elements _ _ Hc) as Hel.
  assert (Hfree : Forall (fun e => sep_free e = true) l).
  { eapply Forall_impl; [exact Hel | intros e [_ H]; exact H]. }
  unfold render. destruct r.
  - cbn [filepath.elements].
    change (filepath.IsPathSeparator filepath.Separator) with true.
    cbv iota. destruct l as [|e l]; [reflexivity |].
    rewrite elements_join_sep by (assumption || discriminate).
    rewrite fold_clean_skip.
    apply fold_clean_canonical. assumption.
  - case_decide as Hj.
    + apply join_sep_nil_iff in Hj; [| assumption]. subst. reflexivity.
    + destruct l as [|e l]; [simpl in Hj; congruence |].
      rewrite elements_join_sep by (assumption || discriminate).
      apply fold_clean_canonical. assumption.
Qed.

(** A cleaned path is its own cleaning. *)
Lemma Clean_render_id (r : bool) (l : list string) :
  canonical r l -> filepath.Clean (render r l) = render r l.
Proof.
  intros Hc. unfold filepath.Clean at 1.
  rewrite rooted_render, fold_clean_render by assumption.
  rewrite rev_involutive. reflexivity.
Qed.

Lemma Clean_idempotent (path : string) :
  filepath.Clean (filepath.Clean path) = filepath.Clean path.
Proof.
  destruct (Clean_render path) as (l & Hc & ->). apply Clean_render_id, Hc.
Qed.

Lemma string_app_assoc (a b c : string) :
  (a +:+ b) +:+ c = a +:+ (b +:+ c).
Proof.
  induction a as [|x a IH]; [reflexivity |].
  change ((String x a +:+ b) +:+ c) with (String x ((a +:+ b) +:+ c)).
  rewrite IH. reflexivity.
Qed.

(** Joining a name to a cleaned path appends it. *)
Lemma Join_render (r : bool) (l : list string) (b : string) :
  canonical r l -> real b ->
  filepath.Join (render r l) b = render r (l ++ [b]).
Proof.
  intros Hc Hb. unfold filepath.Join.
  rewrite decide_False by apply render_nonempty.
  unfold filepath.Clean.
  rewrite rooted_app by apply render_nonempty.
  rewrite rooted_render by assumption.
  rewrite elements_app_sep, fold_left_app, fold_clean_render by assumption.
  rewrite elements_single by (destruct Hb as [[_ H] _]; exact H).
  cbn [fold_left]. rewrite clean_step_real by assumption.
  cbn [rev]. rewrite rev_involutive. reflexivity.
Qed.

Lemma upto_last_sep_app (a b : string) :
  sep_free b = true ->
  filepath.upto_last_sep (a +:+ String filepath.Separator b)
    = a +:+ String filepath.Separator "".
Proof.
  intros Hb.
  assert (Hbase : filepath.upto_last_sep b = "").
  { induction b as [|c b IH]; [reflexivity |].
    simpl in Hb. apply andb_true_iff in Hb as [Hc Hb].
    apply negb_true_iff in Hc.
    cbn [filepath.upto_last_sep]. rewrite IH by assumption.
    rewrite decide_True by reflexivity. rewrite Hc. reflexivity. }
  induction a as [|c a IH].
  - change ("" +:+ String filepath.Separator b)
      with (String filepath.Separator b).
    cbn [filepath.upto_last_sep]. rewrite Hbase. reflexivity.
  - change (String c a +:+ String filepath.Separator b)
      with (String c (a +:+ String filepath.Separator b)).
    cbn [filepath.upto_last_sep]. rewrite IH.
    rewrite decide_False by (destruct a; discriminate). reflexivity.
Qed.

Lemma join_sep_snoc (l : list string) (b : string) :
  l <> [] ->
  filepath.join_sep (l ++ [b])
    = filepath.join_sep l +:+ String filepath.Separator b.
Proof.
  induction l as [|e l IH]; intros Hne; [congruence |].
  destruct l as [|e2 l]; [reflexivity |].
  change (filepath.join_sep ((e :: e2 :: l) ++ [b]))
    with (e +:+ String filepath.Separator
                  (filepath.join_sep ((e2 :: l) ++ [b]))).
  rewrite IH by discriminate.
  change (filepath.join_sep (e :: e2 :: l))
    with (e +:+ String filepath.Separator (filepath.join_sep (e2 :: l))).
  rewrite string_app_assoc. reflexivity.
Qed.

Lemma Clean_render_slash (r : bool) (l : list string) :
  canonical r l ->
  filepath.Clean (render r l +:+ String filepath.Separator "") = render r l.
Proof.
  intros Hc. unfold filepath.Clean.
  rewrite rooted_app by apply render_nonempty.
  rewrite rooted_render by assumption.
  rewrite elements_app_sep, fold_left_app, fold_clean_render by assumption.
  cbn [filepath.elements fold_left]. 
  change (filepath.clean_step r (rev l) "") with (rev l).
  rewrite rev_involutive. reflexivity.
Qed.

Lemma render_snoc (r : bool) (l : list string) (b : string) :
  canonical r l -> l <> [] ->
  render r (l ++ [b]) = render r l +:+ String filepath.Separator b.
Proof.
  intros Hc Hne. unfold render. rewrite join_sep_snoc by assumption.
  destruct r; [reflexivity |].
  rewrite decide_False
    by (destruct (filepath.join_sep l); discriminate).
  rewrite decide_False; [reflexivity |].
  intros Hj. apply join_sep_nil_iff in Hj; [congruence |].
  eapply canonical_elements; eassumption.
Qed.

(** The directory of a cleaned path with a name appended is that path. *)
Lemma Dir_render (r : bool) (l : list string) (b : string) :
  canonical r l -> real b ->
  filepath.Dir (render r (l ++ [b])) = render r l.
Proof.
  intros Hc Hb. pose proof Hb as ([Hne Hfree] & _). unfold filepath.Dir.
  destruct l as [|e l].
  - destruct r.
    + change (render true ([] ++ [b]))
        with ("" +:+ String filepath.Separator b).
      rewrite upto_last_sep_app by assumption. reflexivity.
    + unfold render. cbn [app filepath.join_sep].
      rewrite decide_False by assumption.
      assert (Hup : filepath.upto_last_sep b = "").
      { clear -Hfree. induction b as [|c b IH]; [reflexivity |].
        simpl in Hfree. apply andb_true_iff in Hfree as [Hc Hb].
        apply negb_true_iff in Hc.
        cbn [filepath.upto_last_sep]. rewrite IH by assumption.
        rewrite decide_True by reflexivity. rewrite Hc. reflexivity. }
      rewrite Hup. reflexivity.
  - rewrite render_snoc by (assumption || discriminate).
    rewrite upto_last_sep_app by assumption.
    apply Clean_render_slash. assumption.
Qed.

Lemma sep_free_app (a b : string) :
  sep_free (a +:+ b) = sep_free a && sep_free b.
Proof.
  induction a as [|c a IH]; [reflexivity |]. simpl. rewrite IH.
  apply andb_assoc.
Qed.

Lemma sep_free_hex (d : Hexadecimal.uint) :
  sep_free (HexadecimalString.NilEmpty.string_of_uint d) = true.
Proof. induction d; simpl; auto. Qed.

Lemma sep_free_dec (d : Decimal.uint) :
  sep_free (DecimalString.NilEmpty.string_of_uint d) = true.
Proof. induction d; simpl; auto. Qed.

Lemma sep_free_fmt_x (n : Z) : sep_free (fmt_x n) = true.
Proof.
  unfold fmt_x, HexadecimalString.NilZero.string_of_int,
    HexadecimalString.NilZero.string_of_uint.
  destruct (Z.to_hex_int n) as [d|d]; destruct d; simpl;
    auto using sep_free_hex.
Qed.

Lemma sep_free_fmt_d (n : Z) : sep_free (fmt_d n) = true.
Proof.
  unfold fmt_d, DecimalString.NilZero.string_of_int,
    DecimalString.NilZero.string_of_uint.
  destruct (Z.to_int n) as [d|d]; destruct d; simpl;
    auto using sep_free_dec.
Qed.

(** The name [Create] gives to the temporary file is a plain name. *)
Lemma Sprintf_tmp_real (nano counter : Z) : real (Sprintf_tmp nano counter).
Proof.
  assert (Hlast : filepath.last_char (Sprintf_tmp nano counter)
                  = Some "p"%char).
  { unfold Sprintf_tmp.
    change ("-" +:+ fmt_d counter +:+ ".tmp")
      with (String "-" (fmt_d counter +:+ String "." "tmp")).
    rewrite last_char_app.
    pose proof (last_char_app (fmt_d counter) "tmp" ".") as H.
    destruct (fmt_d counter +:+ String "." "tmp") eqn:E.
    - destruct (fmt_d counter); discriminate.
    - change (filepath.last_char (String "-" (String a s)))
        with (filepath.last_char (String a s)).
      rewrite H. reflexivity. }
  repeat split.
  - intros E. rewrite E in Hlast. discriminate.
  - unfold Sprintf_tmp. rewrite !sep_free_app, sep_free_fmt_x, sep_free_fmt_d.
    reflexivity.
  - intros E. rewrite E in Hlast. discriminate.
  - intros E. rewrite E in Hlast. discriminate.
Qed.

(** The candidate name is in the directory of the cleaned destination. *)
Lemma Dir_candidate (filename : string) (nano counter : Z) :
  filepath.Dir (candidate filename nano counter)
    = filepath.Dir (filepath.Clean filename).
Proof.
  unfold candidate.
  destruct (Clean_render (filepath.upto_last_sep (filepath.Clean filename)))
    as (l & Hc & Hd).
  unfold filepath.Dir at 2 3. rewrite Hd.
  rewrite Join_render by (assumption || apply Sprintf_tmp_real).
  apply Dir_render; [assumption | apply Sprintf_tmp_real].
Qed.

Lemma Create_loop_name (fuel : nat) :
  forall (filename : string) (perm c : Z) (w w' : World) (f : File),
    Create_loop fuel filename perm c w = (Some (inl f), w') ->
    exists nano c', Name (file f) = candidate filename nano c'.
Proof.
  induction fuel as [|fuel IH]; intros filename perm c w w' f H;
    [discriminate |].
  destruct (decide (filepath.Clean filename = "/")) as [Hroot|Hroot].
  - cbn [Create_loop] in H. unfold bind in H. rewrite makeTempName_spec in H.
    rewrite decide_True in H by assumption. discriminate.
  - rewrite Create_loop_step in H by assumption. cbv zeta in H.
    destruct (faults w) as [|[|e|n] rest];
      try (inversion H; subst; simpl; eauto).
    destruct (os.IsExist e); [eapply IH; exact H | discriminate].
Qed.

(** X15. [Create] creates the temporary file in the same directory as the
    destination: the directory of the temporary path is the directory of
    the cleaned destination path. *)
Theorem Create_same_directory (fuel : nat) (filename : string) (perm : Z)
    (w w' : World) (f : File) :
  Create fuel filename perm w = (Some (inl f), w') ->
  filepath.Dir (Name (file f)) = filepath.Dir (filepath.Clean filename).
Proof.
  intros H. apply Create_loop_name in H as (nano & c & ->).
  apply Dir_candidate.
Qed.

(** ** Retrying [Commit] *)

(** X16. A failed [Commit] can be tried again only if it failed in sync:
    then the handle is as it was.  If it failed in close or in rename the
    file is closed, and every later [Commit] is refused at its sync with the
    closed-file error and makes no rename; only [Close] is left to the
    caller. *)
Theorem Commit_again_after_failure (f f1 : File) (w w1 : World) (e : error) :
  Commit f w = (Some e, f1, w1) ->
  (f1 = f /\ last (events w1) = Some (OpSync (Name (file f)), Some e))
  \/
  (closed (file f1) = true /\
   forall w2,
     Commit f1 w2
       = (Some ErrClosed, f1,
          add_event (OpSync (Name (file f)), Some ErrClosed) w2)).
Proof.
  intros H. apply Commit_step in H as
    [(e' & He & -> & _ & Hev)
    |[(_ & e' & _ & -> & _)
    |[(_ & e' & _ & -> & _)
    |(_ & ? & _)]]]; try discriminate.
  - left. inversion He; subst. split; [reflexivity |].
    rewrite Hev. apply last_snoc.
  - right. split; reflexivity.
  - right. split; reflexivity.
Qed.

(** X17. Recovery from a failed [Commit]: after [Create] on a free
    temporary path, any writes, a [Commit] that failed (in sync, close or
    rename) and a [Close] whose removal succeeded, the files are exactly as
    they were before [Create], whatever [Close] itself returned. *)
Theorem failed_Commit_then_Close_restores_files (fuel : nat)
    (filename : string) (perm : Z) (w w1 w2 w3 w4 : World)
    (f f2 f3 f4 : File) (bs : list (list Byte.byte))
    (errs : list (option error)) (e : error) (cerr : option error) :
  Create fuel filename perm w = (Some (inl f), w1) ->
  files w !! Name (file f) = None ->
  calls (map CallWrite bs) f w1 = (errs, f2, w2) ->
  Commit f2 w2 = (Some e, f3, w3) ->
  Close f3 w3 = (cerr, f4, w4) ->
  last (events w4) = Some (OpRemove (Name (file f)), None) ->
  files w4 = files w.
Proof.
  intros Hc Hfresh Hws Hcm Hcl Hlast. unfold Create in Hc.
  pose proof (Create_loop_frame _ _ _ _ _ _ _ Hc) as Hfr0.
  apply Create_loop_inv in Hc as (Hfn & _).
  apply calls_writes_frame in Hws as (Hfr1 & Hn & Hfn2 & _).
  rewrite Hfn in Hfn2.
  pose proof (Commit_failed_state _ _ _ _ _ Hfn2 Hcm) as [Hst Hn3].
  assert (Hfs3 : files w3 = files w2).
  { apply Commit_step in Hcm as
      [(? & _ & _ & Hfs & _)
      |[(_ & ? & _ & _ & Hfs & _)
      |[(_ & ? & _ & _ & Hfs & _)
      |(_ & ? & _)]]]; try discriminate; exact Hfs. }
  pose proof (Close_cleans_up _ _ _ _ _ Hst Hcl) as (r & Hl & Hgone).
  apply Close_step in Hcl as (_ & _ & Hfr2 & _).
  rewrite Hn3, Hn in *.
  apply (frame_fresh_eq (Name (file f))); auto.
  - eapply frame_trans; [| exact Hfr2].
    eapply frame_trans; [| apply frame_of_eq; exact Hfs3].
    eapply frame_trans; eassumption.
  - apply Hgone. rewrite Hl in Hlast. congruence.
Qed.

(** ** Witnesses of the further properties *)

Lemma calls_rename_and_remove_once_witness :
  Create 1 report 420 (world1 fs_old []) = (Some (inl handle0), (created1 [])) /\
  let '(_, _, w') :=
    calls [CallCommit; CallCommit; CallClose; CallClose] handle0 (created1 []) in
  exists evs, events w' = events (created1 []) ++ evs /\
    (count_events is_rename evs <= 1)%nat /\
    (count_events is_remove evs <= 1)%nat.
Proof.
  assert (Hc : Create 1 report 420 (world1 fs_old [])
               = (Some (inl handle0), (created1 [])))
    by (vm_compute; reflexivity).
  exact (conj Hc
           (calls_rename_and_remove_once 1 report 420 (world1 fs_old [])
              (created1 []) handle0 [CallCommit; CallCommit; CallClose; CallClose]
              Hc)).
Defined.

Lemma calls_after_Commit_or_Close_are_inert_witness :
  let c := Commit handle0 (world1 fs_open []) in
  (c = (None, c.1.2, c.2) \/
   (closeFunc handle0 = fn_closeUncommitted /\
    Close handle0 (world1 fs_open []) = (None, c.1.2, c.2))) /\
  let '(_, f2, w2) :=
    calls [CallWrite (bytes "late"); CallCommit; CallClose] c.1.2 c.2 in
  f2 = c.1.2 /\ files w2 = files c.2 /\ faults w2 = faults c.2 /\
  exists evs, events w2 = events c.2 ++ evs /\ Forall refused evs.
Proof.
  intros c.
  assert (H : c = (None, c.1.2, c.2) \/
              (closeFunc handle0 = fn_closeUncommitted /\
               Close handle0 (world1 fs_open []) = (None, c.1.2, c.2)))
    by (left; vm_compute; reflexivity).
  exact (conj H
           (calls_after_Commit_or_Close_are_inert handle0 c.1.2
              (world1 fs_open []) c.2 None
              [CallWrite (bytes "late"); CallCommit; CallClose] H)).
Defined.

Lemma OrigName_is_the_name_given_witness :
  Create 1 report 420 (world1 fs_old []) = (Some (inl handle0), (created1 [])) /\
  OrigName handle0 = report /\
  OrigName (calls [CallWrite (bytes "x"); CallCommit] handle0 (created1 [])).1.2
    = report /\
  Name (file (calls [CallWrite (bytes "x"); CallCommit] handle0 (created1 [])).1.2)
    = Name (file handle0).
Proof.
  assert (Hc : Create 1 report 420 (world1 fs_old [])
               = (Some (inl handle0), (created1 [])))
    by (vm_compute; reflexivity).
  exact (conj Hc
           (OrigName_is_the_name_given 1 report 420 (world1 fs_old [])
              (created1 []) handle0 [CallWrite (bytes "x"); CallCommit] Hc)).
Defined.

Lemma WriteFile_failure_leaves_files_witness :
  let w := world1 fs_old [NoFault; Short 3] in
  let w' := (WriteFile 1 report (bytes "new data") 420 w).2 in
  WriteFile 1 report (bytes "new data") 420 w
    = (Some (Some ErrShortWrite), w') /\
  match Create 1 report 420 w with
  | (Some (inl f), _) =>
      frame (Name (file f)) w w' /\
      (files w !! Name (file f) = None ->
       last (events w') = Some (OpRemove (Name (file f)), None) ->
       files w' = files w)
  | _ => files w' = files w
  end.
Proof.
  intros w w'.
  assert (H : WriteFile 1 report (bytes "new data") 420 w
              = (Some (Some ErrShortWrite), w'))
    by (vm_compute; reflexivity).
  exact (conj H
           (WriteFile_failure_leaves_files 1 report (bytes "new data") 420
              w w' ErrShortWrite H)).
Defined.


Lemma Close_restores_files_witness :
  let w := world1 fs_old [] in
  let ws := calls (map CallWrite [bytes "new "; bytes "data"])
                  handle0 (created1 []) in
  let cl := Close ws.1.2 ws.2 in
  Create 1 report 420 w = (Some (inl handle0), (created1 [])) /\
  files w !! Name (file handle0) = None /\
  calls (map CallWrite [bytes "new "; bytes "data"]) handle0 (created1 [])
    = (ws.1.1, ws.1.2, ws.2) /\
  Close ws.1.2 ws.2 = (None, cl.1.2, cl.2) /\
  files cl.2 = files w.
Proof.
  intros w ws cl.
  assert (Hc : Create 1 report 420 w = (Some (inl handle0), (created1 [])))
    by (vm_compute; reflexivity).
  assert (Hf : files w !! Name (file handle0) = None)
    by (vm_compute; reflexivity).
  assert (Hw : calls (map CallWrite [bytes "new "; bytes "data"])
                     handle0 (created1 []) = (ws.1.1, ws.1.2, ws.2))
    by (vm_compute; reflexivity).
  assert (Hcl : Close ws.1.2 ws.2 = (None, cl.1.2, cl.2))
    by (vm_compute; reflexivity).
  exact (conj Hc (conj Hf (conj Hw (conj Hcl
           (Close_restores_files 1 report 420 w (created1 []) ws.2 cl.2
              handle0 ws.1.2 cl.1.2 [bytes "new "; bytes "data"] ws.1.1
              Hc Hf Hw Hcl))))).
Defined.

Lemma Rev1_Close_again_witness :
  let c := Rev1.Close rev1_handle0 (world1 fs_open []) in
  Rev1.Close rev1_handle0 (world1 fs_open []) = (None, c.1.2, c.2) /\
  let tmp := Name (Rev1.file rev1_handle0) in
  let '(err2, f2, w2) := Rev1.Close c.1.2 c.2 in
  err2 = Some ErrClosed /\ f2 = c.1.2 /\
  (exists r, events w2 = events c.2 ++ [(OpSync tmp, Some ErrClosed);
                                        (OpClose tmp, Some ErrClosed);
                                        (OpRemove tmp, r)]) /\
  frame tmp c.2 w2 /\
  (@None error = None -> tmp <> Rev1.origName rev1_handle0 ->
   files w2 = files c.2).
Proof.
  intros c.
  assert (H : Rev1.Close rev1_handle0 (world1 fs_open [])
              = (None, c.1.2, c.2))
    by (vm_compute; reflexivity).
  exact (conj H
           (Rev1_Close_again rev1_handle0 c.1.2 (world1 fs_open []) c.2
              None H)).
Defined.

Lemma Rev1_WriteFile_success_content_witness :
  let w := world1 fs_old [] in
  let w' := (Rev1.WriteFile 1 report (bytes "new data") 420 w).2 in
  Rev1.Create 1 report 420 w = (Some (inl rev1_handle0), (created1 [])) /\
  files w !! Name (Rev1.file rev1_handle0) = None /\
  Rev1.WriteFile 1 report (bytes "new data") 420 w = (Some None, w') /\
  files w' = <[report := {| mode := 420; data := bytes "new data" |}]>
               (files w).
Proof.
  intros w w'.
  assert (Hc : Rev1.Create 1 report 420 w
               = (Some (inl rev1_handle0), (created1 [])))
    by (vm_compute; reflexivity).
  assert (Hf : files w !! Name (Rev1.file rev1_handle0) = None)
    by (vm_compute; reflexivity).
  assert (H : Rev1.WriteFile 1 report (bytes "new data") 420 w
              = (Some None, w'))
    by (vm_compute; reflexivity).
  exact (conj Hc (conj Hf (conj H
           (Rev1_WriteFile_success_content 1 report (bytes "new data") 420
              w (created1 []) w' rev1_handle0 Hc Hf H)))).
Defined.

Lemma Rev1_WriteFile_commits_failed_write_witness :
  let w := world1 fs_old [NoFault; Short 3] in
  let w1 := after_open temp0 420 None w in
  let wr := Rev1.Write rev1_handle0 (bytes "new data") w1 in
  let cl := Rev1.Close wr.1.2 wr.2 in
  Rev1.Create 1 report 420 w = (Some (inl rev1_handle0), w1) /\
  files w !! Name (Rev1.file rev1_handle0) = None /\
  Rev1.Write rev1_handle0 (bytes "new data") w1
    = (3%nat, None, wr.1.2, wr.2) /\
  (@None error <> None \/ (3 < length (bytes "new data"))%nat) /\
  Rev1.Close wr.1.2 wr.2 = (None, cl.1.2, cl.2) /\
  Rev1.WriteFile 1 report (bytes "new data") 420 w
    = (Some (Some ErrShortWrite), cl.2) /\
  files cl.2 = <[report := {| mode := 420;
                              data := take 3 (bytes "new data") |}]>
                 (files w).
Proof.
  intros w w1 wr cl.
  assert (Hc : Rev1.Create 1 report 420 w = (Some (inl rev1_handle0), w1))
    by (vm_compute; reflexivity).
  assert (Hf : files w !! Name (Rev1.file rev1_handle0) = None)
    by (vm_compute; reflexivity).
  assert (Hw : Rev1.Write rev1_handle0 (bytes "new data") w1
               = (3%nat, None, wr.1.2, wr.2))
    by (vm_compute; reflexivity).
  assert (Hs : @None error <> None \/ (3 < length (bytes "new data"))%nat)
    by (right; vm_compute; lia).
  assert (Hcl : Rev1.Close wr.1.2 wr.2 = (None, cl.1.2, cl.2))
    by (vm_compute; reflexivity).
  exact (conj Hc (conj Hf (conj Hw (conj Hs (conj Hcl
           (Rev1_WriteFile_commits_failed_write 1 report (bytes "new data")
              420 w w1 wr.2 cl.2 rev1_handle0 wr.1.2 cl.1.2 3 None
              Hc Hf Hw Hs Hcl)))))).
Defined.

Lemma Commit_publishes_temp_file_witness :
  let w := world1 fs_old [NoFault; Short 3] in
  let w1 := after_open temp0 420 None w in
  let ws := calls (map CallWrite [bytes "new data"]) handle0 w1 in
  let cm := Commit ws.1.2 ws.2 in
  Create 1 report 420 w = (Some (inl handle0), w1) /\
  files w !! Name (file handle0) = None /\
  calls (map CallWrite [bytes "new data"]) handle0 w1
    = (ws.1.1, ws.1.2, ws.2) /\
  Commit ws.1.2 ws.2 = (None, cm.1.2, cm.2) /\
  exists nd, files ws.2 !! Name (file handle0) = Some nd /\
             files cm.2 = <[report := nd]> (files w).
Proof.
  intros w w1 ws cm.
  assert (Hc : Create 1 report 420 w = (Some (inl handle0), w1))
    by (vm_compute; reflexivity).
  assert (Hf : files w !! Name (file handle0) = None)
    by (vm_compute; reflexivity).
  assert (Hw : calls (map CallWrite [bytes "new data"]) handle0 w1
               = (ws.1.1, ws.1.2, ws.2))
    by (vm_compute; reflexivity).
  assert (Hcm : Commit ws.1.2 ws.2 = (None, cm.1.2, cm.2))
    by (vm_compute; reflexivity).
  exact (conj Hc (conj Hf (conj Hw (conj Hcm
           (Commit_publishes_temp_file 1 report 420 w w1 ws.2 cm.2
              handle0 ws.1.2 cm.1.2 [bytes "new data"] ws.1.1
              Hc Hf Hw Hcm))))).
Defined.

Lemma write_Commit_Close_publishes_writes_witness :
  let w := world1 fs_old [] in
  let ws := calls (map CallWrite [bytes "new "; bytes "data"])
                  handle0 (created1 []) in
  Create 1 report 420 w = (Some (inl handle0), (created1 [])) /\
  files w !! Name (file handle0) = None /\
  faults (created1 []) = [] /\
  calls (map CallWrite [bytes "new "; bytes "data"]) handle0 (created1 [])
    = (ws.1.1, ws.1.2, ws.2) /\
  Forall (fun e => e = None) ws.1.1 /\
  exists f3 w3,
    Commit ws.1.2 ws.2 = (None, f3, w3) /\
    Close f3 w3 = (None, f3, w3) /\
    files w3 = <[report := {| mode := 420;
                              data := concat [bytes "new "; bytes "data"] |}]>
                 (files w).
Proof.
  intros w ws.
  assert (Hc : Create 1 report 420 w = (Some (inl handle0), (created1 [])))
    by (vm_compute; reflexivity).
  assert (Hf : files w !! Name (file handle0) = None)
    by (vm_compute; reflexivity).
  assert (Hfl : faults (created1 []) = []) by reflexivity.
  assert (Hw : calls (map CallWrite [bytes "new "; bytes "data"])
                     handle0 (created1 []) = (ws.1.1, ws.1.2, ws.2))
    by (vm_compute; reflexivity).
  exact (conj Hc (conj Hf (conj Hfl (conj Hw
           (write_Commit_Close_publishes_writes 1 report 420 w (created1 []) ws.2
              handle0 ws.1.2 [bytes "new "; bytes "data"] ws.1.1
              Hc Hf Hfl Hw))))).
Defined.

Lemma Create_same_directory_witness :
  Create 1 report 420 (world1 fs_old []) = (Some (inl handle0), (created1 [])) /\
  filepath.Dir (Name (file handle0)) = filepath.Dir (filepath.Clean report).
Proof.
  assert (Hc : Create 1 report 420 (world1 fs_old [])
               = (Some (inl handle0), (created1 [])))
    by (vm_compute; reflexivity).
  exact (conj Hc
           (Create_same_directory 1 report 420 (world1 fs_old []) (created1 [])
              handle0 Hc)).
Defined.

Lemma Commit_again_after_failure_witness :
  let w := world1 fs_open [NoFault; NoFault; Fail (Errno 18)] in
  let c := Commit handle0 w in
  Commit handle0 w = (Some (Errno 18), c.1.2, c.2) /\
  ((c.1.2 = handle0 /\
    last (events c.2) = Some (OpSync (Name (file handle0)), Some (Errno 18)))
   \/
   (closed (file c.1.2) = true /\
    forall w2,
      Commit c.1.2 w2
        = (Some ErrClosed, c.1.2,
           add_event (OpSync (Name (file handle0)), Some ErrClosed) w2))).
Proof.
  intros w c.
  assert (H : Commit handle0 w = (Some (Errno 18), c.1.2, c.2))
    by (vm_compute; reflexivity).
  exact (conj H
           (Commit_again_after_failure handle0 c.1.2 w c.2 (Errno 18) H)).
Defined.

Lemma failed_Commit_then_Close_restores_files_witness :
  let w := world1 fs_old [NoFault; NoFault; NoFault; NoFault;
                          Fail (Errno 18)] in
  let w1 := after_open temp0 420 None w in
  let ws := calls (map CallWrite [bytes "new data"]) handle0 w1 in
  let cm := Commit ws.1.2 ws.2 in
  let cl := Close cm.1.2 cm.2 in
  Create 1 report 420 w = (Some (inl handle0), w1) /\
  files w !! Name (file handle0) = None /\
  calls (map CallWrite [bytes "new data"]) handle0 w1
    = (ws.1.1, ws.1.2, ws.2) /\
  Commit ws.1.2 ws.2 = (Some (Errno 18), cm.1.2, cm.2) /\
  Close cm.1.2 cm.2 = (cl.1.1, cl.1.2, cl.2) /\
  last (events cl.2) = Some (OpRemove (Name (file handle0)), None) /\
  files cl.2 = files w.
Proof.
  intros w w1 ws cm cl.
  assert (Hc : Create 1 report 420 w = (Some (inl handle0), w1))
    by (vm_compute; reflexivity).
  assert (Hf : files w !! Name (file handle0) = None)
    by (vm_compute; reflexivity).
  assert (Hw : calls (map CallWrite [bytes "new data"]) handle0 w1
               = (ws.1.1, ws.1.2, ws.2))
    by (vm_compute; reflexivity).
  assert (Hcm : Commit ws.1.2 ws.2 = (Some (Errno 18), cm.1.2, cm.2))
    by (vm_compute; reflexivity).
  assert (Hcl : Close cm.1.2 cm.2 = (cl.1.1, cl.1.2, cl.2))
    by (vm_compute; reflexivity).
  assert (Hl : last (events cl.2)
               = Some (OpRemove (Name (file handle0)), None))
    by (vm_compute; reflexivity).
  exact (conj Hc (conj Hf (conj Hw (conj Hcm (conj Hcl (conj Hl
           (failed_Commit_then_Close_restores_files 1 report 420
              w w1 ws.2 cm.2 cl.2 handle0 ws.1.2 cm.1.2 cl.1.2
              [bytes "new data"] ws.1.1 (Errno 18) cl.1.1
              Hc Hf Hw Hcm Hcl Hl))))))).
Defined.
